(** * scroll-github-increment: a model of [main.py] and its properties

    The script pulls the last three days of commits of every labelled
    repository from the GitHub REST API (one thread per repository), gathers
    the pages into data frames, concatenates them and appends to the warehouse
    table [SCROLLSTATS_GIT_COMMITS] the rows that are not there yet.

    The embedding follows the source function by function.  The outside world
    (the HTTP server, the wall clock, the warehouse) is explicit: the server
    is a function of the request and of its position in the conversation, the
    clock a sequence of readings, the warehouse a record of tables together
    with the faults its driver may raise. *)

From Stdlib Require Import QArith Qround Lqa Ascii String.
From stdpp Require Import base gmap strings list.
From Stdlib Require Import DecimalString DecimalNat.

Local Open Scope string_scope.
Local Open Scope list_scope.

(** ** Python values shared by the whole script *)

(** A text ([str]) is the sequence of its code points, all below 256: this
    is what the HTTP client gives for a header value, which it decodes as
    Latin-1.  A [bytes] value is the sequence of its bytes. *)

(** Exceptions, by class, with [str(exc)] as payload. *)
Inductive exn : Type :=
| Exception (msg : string)
| ValueError (msg : string)
| JSONDecodeError (msg : string)
| ProgrammingError (msg : string)
| OverflowError (msg : string)
| OSError (msg : string)
| AttributeError (msg : string).

Definition exn_str (e : exn) : string :=
  match e with
  | Exception m | ValueError m | JSONDecodeError m | ProgrammingError m
  | OverflowError m | OSError m | AttributeError m => m
  end.

(** What a call did: it returned, it raised, or (for the [while True] loop,
    which is run with a bound on the number of requests) it was still going
    when the bound was reached. *)
Inductive outcome (A : Type) : Type :=
| Returned (a : A)
| Raised (e : exn)
| Running.
Arguments Returned {A} a.
Arguments Raised {A} e.
Arguments Running {A}.

(** [str(n)] for a number that is not negative. *)
Definition show_nat (n : nat) : string := NilZero.string_of_uint (Nat.to_uint n).

(** *** [repr] of [bytes] and of [str]

    Single quotes unless the text holds a single quote and no double quote;
    backslash and the chosen quote are escaped, tab, newline and carriage
    return get their letter, and what is not printable is written [\xhh]:
    for [bytes] every byte outside 32..126, for [str] the code points below
    32, 127 to 160 and 173. *)
Definition dquote : ascii := ascii_of_nat 34.
Definition squote : ascii := ascii_of_nat 39.
Definition backslash : ascii := ascii_of_nat 92.

Definition chr (a : ascii) : string := String a EmptyString.

Fixpoint has_char (c : ascii) (s : string) : bool :=
  match s with
  | EmptyString => false
  | String a r => if Ascii.eqb a c then true else has_char c r
  end.

Definition hex_digit (n : nat) : ascii :=
  match String.get n "0123456789abcdef" with
  | Some a => a
  | None => "0"%char
  end.

Definition repr_char (quote a : ascii) : string :=
  let n := nat_of_ascii a in
  if Ascii.eqb a quote || Ascii.eqb a backslash then String backslash (chr a)
  else if Nat.eqb n 9 then String backslash "t"
  else if Nat.eqb n 10 then String backslash "n"
  else if Nat.eqb n 13 then String backslash "r"
  else if Nat.ltb n 32 || Nat.leb 127 n
       then String backslash
              (String "x" (String (hex_digit (n / 16)) (chr (hex_digit (n mod 16)))))
  else chr a.

Fixpoint repr_body (quote : ascii) (s : string) : string :=
  match s with
  | EmptyString => EmptyString
  | String a r => repr_char quote a ++ repr_body quote r
  end.

Definition quote_for (s : string) : ascii :=
  if has_char squote s && negb (has_char dquote s) then dquote else squote.

Definition bytes_repr (s : string) : string :=
  String "b" (String (quote_for s) (repr_body (quote_for s) s ++ chr (quote_for s))).

Definition str_printable (a : ascii) : bool :=
  let n := nat_of_ascii a in
  (Nat.leb 32 n && Nat.leb n 126) || (Nat.leb 161 n && negb (Nat.eqb n 173)).

Definition str_repr_char (quote a : ascii) : string :=
  let n := nat_of_ascii a in
  if Ascii.eqb a quote || Ascii.eqb a backslash then String backslash (chr a)
  else if Nat.eqb n 9 then String backslash "t"
  else if Nat.eqb n 10 then String backslash "n"
  else if Nat.eqb n 13 then String backslash "r"
  else if negb (str_printable a)
       then String backslash
              (String "x" (String (hex_digit (n / 16)) (chr (hex_digit (n mod 16)))))
  else chr a.

Fixpoint str_repr_body (quote : ascii) (s : string) : string :=
  match s with
  | EmptyString => EmptyString
  | String a r => str_repr_char quote a ++ str_repr_body quote r
  end.

Definition str_repr (s : string) : string :=
  String (quote_for s) (str_repr_body (quote_for s) s ++ chr (quote_for s)).

(** *** [int(...)] of a [str] and of a [float]

    As CPython 3.11 reads a text in base 10.  White space above 126 (of the
    code points below 256 these are 133 and 160) first becomes a blank.  Then
    the blanks of C ([\t\n\v\f\r] and the space) are skipped at both ends; a
    sign may come first; the digits follow, where single underscores may
    separate digits.  A literal of more than 4300 digits is refused with an
    error of its own, which is raised as soon as the digits have been
    scanned. *)
Definition py_isspace (a : ascii) : bool :=
  let n := nat_of_ascii a in
  (Nat.leb 9 n && Nat.leb n 13) || Nat.eqb n 32.

Definition to_blank (a : ascii) : ascii :=
  let n := nat_of_ascii a in
  if Nat.eqb n 133 || Nat.eqb n 160 then " "%char else a.

Definition digit_of (a : ascii) : option Z :=
  let n := nat_of_ascii a in
  if Nat.leb 48 n && Nat.leb n 57 then Some (Z.of_nat (n - 48)) else None.

Fixpoint lstrip (s : list ascii) : list ascii :=
  match s with
  | a :: r => if py_isspace a then lstrip r else s
  | [] => []
  end.

(** The scan of digits and underscores: the value and the number of digits
    read, whether the last character read was an underscore, and what is
    left; [None] when two underscores follow each other. *)
Fixpoint scan_digits (acc : Z) (digits : nat) (after_underscore : bool)
    (s : list ascii) : option (Z * nat * bool * list ascii) :=
  match s with
  | [] => Some (acc, digits, after_underscore, [])
  | a :: r =>
      match digit_of a with
      | Some d => scan_digits (10 * acc + d) (S digits) false r
      | None =>
          if Ascii.eqb a "_" then
            if after_underscore then None
            else scan_digits acc digits true r
          else Some (acc, digits, after_underscore, s)
      end
  end.

Definition MAX_STR_DIGITS : nat := 4300.

Inductive parsed : Type :=
| Parsed (z : Z)
| Invalid
| TooManyDigits (digits : nat).

Definition parse_unsigned (negative : bool) (s : list ascii) : parsed :=
  match s with
  | a :: _ =>
      if Ascii.eqb a "_" then Invalid
      else
        match scan_digits 0 0 false s with
        | None => Invalid
        | Some (acc, digits, after_underscore, rest) =>
            if after_underscore then Invalid
            else if Nat.ltb MAX_STR_DIGITS digits then TooManyDigits digits
            else if Nat.eqb digits 0 then Invalid
            else if forallb py_isspace rest
                 then Parsed (if negative then (- acc)%Z else acc)
            else Invalid
        end
  | [] => Invalid
  end.

Definition parse_int (s : string) : parsed :=
  match lstrip (map to_blank (list_ascii_of_string s)) with
  | a :: r =>
      if Ascii.eqb a "-" then parse_unsigned true r
      else if Ascii.eqb a "+" then parse_unsigned false r
      else parse_unsigned false (a :: r)
  | [] => Invalid
  end.

Definition int_literal (s : string) : option Z :=
  match parse_int s with
  | Parsed z => Some z
  | _ => None
  end.

(** The text of the first error shows at most 200 characters of the [repr]
    of the argument. *)
Definition int_of_str (s : string) : exn + Z :=
  match parse_int s with
  | Parsed z => inr z
  | Invalid =>
      inl (ValueError ("invalid literal for int() with base 10: "
                       ++ substring 0 200 (str_repr s)))
  | TooManyDigits digits =>
      inl (ValueError ("Exceeds the limit (4300 digits) for integer string conversion: value has "
                       ++ show_nat digits
                       ++ " digits; use sys.set_int_max_str_digits() to increase the limit"))
  end.

(** A finite float is a rational; [int] truncates it toward zero. *)
Definition int_of_float (q : Q) : Z := Z.quot (Qnum q) (Zpos (Qden q)).

(** *** [time.sleep(seconds)] on an [int]

    A negative argument is refused; one whose nanoseconds do not fit the 64
    bits of the interpreter's time type (more than 9223372036 seconds) raises
    [OverflowError]; and the system clock refuses a sleep that would end past
    what it can represent, which on Linux leaves a little less than that
    number.  [limit] is the longest sleep the clock accepts at the time of
    the call; it is at least one second. *)
Definition SLEEP_MAX : Z := 9223372036.

Definition time_sleep (limit : positive) (seconds : Z) : exn + Z :=
  if (seconds <? 0)%Z then inl (ValueError "sleep length must be non-negative")
  else if (SLEEP_MAX <? seconds)%Z
       then inl (OverflowError "timestamp too large to convert to C _PyTime_t")
  else if (Zpos limit <? seconds)%Z then inl (OSError "[Errno 22] Invalid argument")
  else inr seconds.

(** ** [wait_for_rate_limit]

    [headers.get('X-RateLimit-Reset', time.time())] reads the clock for its
    default whether or not the header is there ([t1]); the second reading
    ([t2]) is the one inside [max].  [headers] is the mapping as
    [headers.get] sees it.  The function returns [None]; what the model
    returns is the time slept. *)
Definition wait_for_rate_limit (headers : gmap string string) (t1 t2 : Q)
    (limit : positive) : exn + Z :=
  match
    match headers !! "X-RateLimit-Reset" with
    | Some v => int_of_str v
    | None => inr (int_of_float t1)
    end
  with
  | inl e => inl e
  | inr reset_time => time_sleep limit (Z.max 0 (reset_time - int_of_float t2))
  end.

(** ** [fetch_commit_history] *)

Definition BASE_URL : string := "https://api.github.com".
Definition PAGE_SIZE : nat := 100.

(** [COMMITS_ENDPOINT.format(owner=owner, repo=repo)] *)
Definition COMMITS_ENDPOINT (owner repo : string) : string :=
  "/repos/" ++ owner ++ "/" ++ repo ++ "/commits".

(** One element of a page: the fields the loop reads are
    [commit["commit"]["author"]["date"]] and [...["name"]], which a page of
    the commits API always carries, as texts. *)
Record GitUser := { name : string; email : string; date : string }.
Record GitCommit := { author : GitUser; message : string }.
Record CommitItem := { sha : string; commit : GitCommit }.

(** One dictionary of [commit_history], later one row of the data frame and
    of the table [(DATE, USERNAME, REPO_NAME)]. *)
Record Row := { row_date : string; row_username : string; row_repo_name : string }.

Global Instance Row_eq_dec : EqDecision Row.
Proof. solve_decision. Defined.

Record Request := {
  req_url : string;
  req_per_page : nat;
  req_page : nat;
  req_since : string
}.

(** [json] is what [response.json()] does: it gives the page, or raises
    when the body does not parse; [links] is the parsed [Link] header keyed
    by [rel]. *)
Record Response := {
  status_code : nat;
  headers : gmap string string;
  content : string;
  json : exn + list CommitItem;
  links : gmap string string
}.

(** The world one call talks to: the answer to the [i]-th request, the
    [c]-th reading of [time.time()], the longest sleep the clock accepts when
    [c] readings have been taken, and
    [(datetime.now() - timedelta(days=3)).isoformat()] as computed on entry. *)
Record Env := {
  server : nat → Request → Response;
  clock : nat → Q;
  sleep_limit : nat → positive;
  since_date : string
}.

Inductive Event : Type :=
| EGet (r : Request)
| ESleep (seconds : Z).

Definition emit {A} (evs : list Event) (r : outcome A * list Event)
  : outcome A * list Event :=
  (r.1, evs ++ r.2).

Definition to_row (owner repo : string) (item : CommitItem) : Row :=
  {| row_date := date (author (commit item));
     row_username := name (author (commit item));
     row_repo_name := owner ++ "/" ++ repo |}.

Definition mk_request (env : Env) (owner repo : string) (page : nat) : Request :=
  {| req_url := BASE_URL ++ COMMITS_ENDPOINT owner repo;
     req_per_page := PAGE_SIZE;
     req_page := page;
     req_since := since_date env |}.

Definition fetch_error (response : Response) : exn :=
  Exception ("Failed to fetch commit history: " ++ bytes_repr (content response)).

(** The [while True] loop, with at most [fuel] requests.  [i] counts the
    requests made so far and [c] the clock readings taken so far.  The
    [time.sleep(1)] of line 71 returns, one second being within every limit. *)
Fixpoint fetch_loop (fuel : nat) (env : Env) (owner repo : string)
    (i c page : nat) (commit_history : list Row)
  : outcome (list Row) * list Event :=
  match fuel with
  | O => (Running, [])
  | S fuel' =>
      let request := mk_request env owner repo page in
      let response := server env i request in
      emit [EGet request]
        (if Nat.eqb (status_code response) 403 then
           match wait_for_rate_limit (headers response)
                   (clock env c) (clock env (S c)) (sleep_limit env c) with
           | inl e => (Raised e, [])
           | inr sleep_time =>
               emit [ESleep sleep_time; ESleep 1]
                 (fetch_loop fuel' env owner repo (S i) (S (S c)) page commit_history)
           end
         else if negb (Nat.eqb (status_code response) 200) then
           (Raised (fetch_error response), [])
         else
           match json response with
           | inl e => (Raised e, [])
           | inr data =>
               let commit_history := commit_history ++ map (to_row owner repo) data in
               if bool_decide (is_Some (links response !! "next")) then
                 fetch_loop fuel' env owner repo (S i) c (S page) commit_history
               else (Returned commit_history, [])
           end)
  end.

Definition fetch_commit_history (fuel : nat) (env : Env) (owner repo : string)
  : outcome (list Row) * list Event :=
  fetch_loop fuel env owner repo 0 0 1 [].

(** ** The warehouse *)

Definition table_name : string := "SCROLLSTATS_GIT_COMMITS".
Definition temp_table_name : string := "TEMP_" ++ table_name.

Inductive StorageOp : Type :=
| OpConnect
| OpCreateTemporaryTable (tbl : string)
| OpWritePandas (tbl : string) (rows : list Row)
| OpInsertNotExists (target staging : string)
| OpCursorClose
| OpConnClose.

(** The state the script works on: the permanent table, the temporary tables
    of the open session, the module-level list [dfs], what was printed, and
    the statements sent to the warehouse. *)
Record World := {
  table : list Row;
  temp_tables : gmap string (list Row);
  dfs : list (list Row);
  stdout : list string;
  storage_log : list StorageOp
}.

Definition set_table (t : list Row) (w : World) : World :=
  {| table := t; temp_tables := temp_tables w; dfs := dfs w;
     stdout := stdout w; storage_log := storage_log w |}.
Definition set_temp_tables (m : gmap string (list Row)) (w : World) : World :=
  {| table := table w; temp_tables := m; dfs := dfs w;
     stdout := stdout w; storage_log := storage_log w |}.
Definition set_dfs (d : list (list Row)) (w : World) : World :=
  {| table := table w; temp_tables := temp_tables w; dfs := d;
     stdout := stdout w; storage_log := storage_log w |}.
Definition print (line : string) (w : World) : World :=
  {| table := table w; temp_tables := temp_tables w; dfs := dfs w;
     stdout := stdout w ++ [line]; storage_log := storage_log w |}.
Definition log_op (op : StorageOp) (w : World) : World :=
  {| table := table w; temp_tables := temp_tables w; dfs := dfs w;
     stdout := stdout w; storage_log := storage_log w ++ [op] |}.

(** What the driver may raise, step by step ([None]: the step goes through),
    and the number of files [write_pandas] reports. *)
Record Faults := {
  connect_fault : option exn;
  create_fault : option exn;
  copy_fault : option exn;
  merge_fault : option exn;
  chunks : nat
}.

(** State and exceptions: a computation maps a world to what it returned or
    raised and the world it left. *)
Definition M (A : Type) : Type := World → (exn + A) * World.

Definition raise {A} (e : exn) : M A := fun w => (inl e, w).
Global Instance M_ret : MRet M := fun A a w => (inr a, w).
Global Instance M_bind : MBind M := fun A B k m w =>
  match m w with
  | (inl e, w') => (inl e, w')
  | (inr a, w') => k a w'
  end.
Definition effect (f : World → World) : M unit := fun w => (inr tt, f w).
Definition get_world : M World := fun w => (inr w, w).
Definition check_fault (fault : option exn) : M unit :=
  match fault with
  | Some e => raise e
  | None => mret tt
  end.

(** *** [write_pandas(conn, df, table)]

    The rows go to the named table through a [COPY INTO] with the default
    [on_error = abort_statement]: a copy that cannot load a row raises, so a
    call that returns has loaded every row, says so in its first result and
    counts the rows in its third. *)
Definition write_pandas (f : Faults) (df : list Row) (tbl : string)
  : M (bool * nat * nat) :=
  check_fault (copy_fault f);;
  w ← get_world;
  match temp_tables w !! tbl with
  | None => raise (ProgrammingError ("Table '" ++ tbl ++ "' does not exist"))
  | Some old =>
      effect (log_op (OpWritePandas tbl df));;
      effect (set_temp_tables (<[tbl := old ++ df]> (temp_tables w)));;
      mret (true, chunks f, length df)
  end.

(** *** The merge statement

    [INSERT INTO t SELECT * FROM s WHERE NOT EXISTS (SELECT 1 FROM t WHERE
    t.DATE = s.DATE AND t.USERNAME = s.USERNAME AND t.REPO_NAME = s.REPO_NAME)]:
    the sub-query reads the target as it is when the statement starts. *)
Definition same_key (t s : Row) : bool :=
  bool_decide (row_date t = row_date s)
  && bool_decide (row_username t = row_username s)
  && bool_decide (row_repo_name t = row_repo_name s).

Definition not_exists (target : list Row) (s : Row) : bool :=
  negb (existsb (fun t => same_key t s) target).

Definition rows_to_insert (target staging : list Row) : list Row :=
  List.filter (not_exists target) staging.

Definition insert_not_exists (target staging : list Row) : list Row :=
  target ++ rows_to_insert target staging.

Definition execute_merge (f : Faults) : M unit :=
  check_fault (merge_fault f);;
  effect (log_op (OpInsertNotExists table_name temp_table_name));;
  effect (fun w => set_table
            (insert_not_exists (table w) (default [] (temp_tables w !! temp_table_name))) w).

(** ** [increment_table]

    [increment_table f df] is the call on a frame that has its three
    columns: [df.columns = df.columns.str.upper()] (line 108) then renames them
    to the names of the table and leaves the rows as they are.  What line 108
    does on the frame without columns that the script can build is
    [upper_columns] below.  The temporary table lives in the session and goes
    with [conn.close()], which an exception skips. *)
Definition increment_table (f : Faults) (df : list Row) : M unit :=
  check_fault (connect_fault f);;
  effect (log_op OpConnect);;
  check_fault (create_fault f);;
  effect (log_op (OpCreateTemporaryTable temp_table_name));;
  effect (fun w => set_temp_tables (<[temp_table_name := []]> (temp_tables w)) w);;
  '(success, nchunks, nrows) ← write_pandas f df temp_table_name;
  execute_merge f;;
  effect (log_op OpCursorClose);;
  effect (log_op OpConnClose);;
  effect (set_temp_tables ∅);;
  if (success : bool) then
    effect (print ("DataFrame successfully written to " ++ table_name
                   ++ ". Rows inserted: " ++ show_nat nrows))
  else
    effect (print "Failed to write DataFrame to Snowflake.").

(** ** [fetch_all_commit_histories] and the script *)

(** One entry of the labels table. *)
Record Repo := { OWNER : string; NAME : string; URL : string }.

Global Instance Repo_eq_dec : EqDecision Repo.
Proof. solve_decision. Defined.

(** What [future.result()] does for the task submitted with the given owner
    and name. *)
Definition Task : Type := string → string → exn + list Row.

(** The body of the [for future in as_completed(futures)] loop. *)
Definition on_completed (task : Task) (w : World) (repo : Repo) : World :=
  let url := URL repo in
  match task (OWNER repo) (NAME repo) with
  | inr data =>
      print (url ++ " Completed Successfully!") (set_dfs (dfs w ++ [data]) w)
  | inl exc =>
      print (url ++ " Generated an exception: " ++ exn_str exc) w
  end.

(** [completed] lists the repositories in the order in which their futures
    complete, which is any order. *)
Definition fetch_all_commit_histories (task : Task) (completed : list Repo)
    (w : World) : World :=
  fold_left (on_completed task) completed w.

(** [pd.concat(dfs, ignore_index=True)] *)
Definition pd_concat (frames : list (list Row)) : exn + list Row :=
  match frames with
  | [] => inl (ValueError "No objects to concatenate")
  | _ => inr (concat frames)
  end.

(** Line 108 on a frame of the script.  [pd.DataFrame(data)] gives a frame
    its three column names when [data] holds a dictionary and no column at
    all otherwise, and [pd.concat] keeps the names its frames have: the frame
    handed to [increment_table] has no column exactly when it has no row, and
    on such columns [.str] raises, before the connection is opened. *)
Definition upper_columns (df : list Row) : M unit :=
  match df with
  | [] => raise (AttributeError "Can only use .str accessor with string values!")
  | _ => mret tt
  end.

(** The statements of the module after [repos] has been read: [dfs = []],
    the collection, the concatenation, the call of [increment_table]. *)
Definition main (task : Task) (completed : list Repo) (f : Faults) : M unit :=
  effect (set_dfs []);;
  effect (fetch_all_commit_histories task completed);;
  w ← get_world;
  match pd_concat (dfs w) with
  | inl e => raise e
  | inr df => upper_columns df;; increment_table f df
  end.

(** The invariant of the permanent table: no two stored rows (two positions
    of the table) agree on [DATE], [USERNAME] and [REPO_NAME]. *)
Definition unique_keys (t : list Row) : Prop :=
  ∀ i j r s, t !! i = Some r → t !! j = Some s → same_key r s = true → i = j.

Definition no_faults (f : Faults) : Prop :=
  connect_fault f = None ∧ create_fault f = None
  ∧ copy_fault f = None ∧ merge_fault f = None.

Definition success_line (nrows : nat) : string :=
  "DataFrame successfully written to " ++ table_name
  ++ ". Rows inserted: " ++ show_nat nrows.

(** The first fault met while the staging table is set up and filled:
    opening the connection, creating the table, loading it. *)
Definition staging_fault (f : Faults) : option exn :=
  match connect_fault f with
  | Some e => Some e
  | None =>
      match create_fault f with
      | Some e => Some e
      | None => copy_fault f
      end
  end.

(** The statements a run adds to the log of the warehouse. *)
Definition new_ops (w w' : World) : list StorageOp :=
  drop (length (storage_log w)) (storage_log w').

Definition is_merge (op : StorageOp) : bool :=
  match op with
  | OpInsertNotExists _ _ => true
  | _ => false
  end.

(** The headers on which [wait_for_rate_limit] has a reset time to work
    with: no [X-RateLimit-Reset], or one that [int] reads. *)
Definition reset_readable (h : gmap string string) : Prop :=
  match h !! "X-RateLimit-Reset" with
  | Some v => is_Some (int_literal v)
  | None => True
  end.

(** The time to wait, [max 0 (reset - now)], is one that [time.sleep] takes:
    not above 9223372036 seconds and not above what the clock accepts. *)
Definition sleep_accepts (limit : positive) (seconds : Z) : Prop :=
  (seconds ≤ SLEEP_MAX)%Z ∧ (seconds ≤ Zpos limit)%Z.

Definition wait_in_reach (h : gmap string string) (t1 t2 : Q) (limit : positive)
  : Prop :=
  match h !! "X-RateLimit-Reset" with
  | Some v =>
      ∀ reset, int_literal v = Some reset →
               sleep_accepts limit (reset - int_of_float t2)
  | None => sleep_accepts limit (int_of_float t1 - int_of_float t2)
  end.

(** What a run of [n] consecutive 403 answers to the same request leaves in
    the trace, [w k] being the [k]-th wait. *)
Fixpoint throttle_trace (request : Request) (w : nat → Z) (n : nat) : list Event :=
  match n with
  | O => []
  | S n' =>
      [EGet request; ESleep (w 0); ESleep 1]
      ++ throttle_trace request (λ k, w (S k)) n'
  end.

(** A synthetic source of [length pages] pages: page [p] (from 1) answers
    200 with its items; besides the relations [others p] that a page may
    carry ([prev], [first], [last], ...), it carries a [next] link exactly
    while a later page exists.  Any page past the end, and page 1 of a source
    without pages, is empty and has no [next] link. *)
Definition page_items (pages : list (list CommitItem)) (p : nat) : list CommitItem :=
  match p with
  | O => []
  | S k => default [] (pages !! k)
  end.

Definition page_response (pages : list (list CommitItem))
    (others : nat → gmap string string) (p : nat) : Response :=
  {| status_code := 200;
     headers := ∅;
     content := "";
     json := inr (page_items pages p);
     links := if Nat.ltb p (length pages)
              then <[ "next" := "next" ]> (others p)
              else delete "next" (others p) |}.

Definition synthetic (pages : list (list CommitItem))
    (others : nat → gmap string string) (clk : nat → Q) (lim : nat → positive)
    (since : string) : Env :=
  {| server := λ _ request, page_response pages others (req_page request);
     clock := clk;
     sleep_limit := lim;
     since_date := since |}.

(** [needle in hay] *)
Fixpoint contains (needle hay : string) : bool :=
  if String.prefix needle hay then true
  else match hay with
       | EmptyString => false
       | String _ rest => contains needle rest
       end.

(** The line the collector prints for a completed repository. *)
Definition report_line (task : Task) (repo : Repo) : string :=
  match task (OWNER repo) (NAME repo) with
  | inr _ => URL repo ++ " Completed Successfully!"
  | inl exc => URL repo ++ " Generated an exception: " ++ exn_str exc
  end.

Definition task_data (task : Task) (repo : Repo) : option (list Row) :=
  match task (OWNER repo) (NAME repo) with
  | inr data => Some data
  | inl _ => None
  end.

(** Sample data for the concrete runs below. *)
Definition healthy : Faults :=
  {| connect_fault := None; create_fault := None; copy_fault := None;
     merge_fault := None; chunks := 1 |}.

Definition row_a : Row :=
  {| row_date := "2023-08-01T10:00:00Z"; row_username := "alice";
     row_repo_name := "scroll-tech/scroll" |}.
Definition row_b : Row :=
  {| row_date := "2023-08-02T11:30:00Z"; row_username := "bob";
     row_repo_name := "scroll-tech/scroll" |}.

Definition world_with (t : list Row) : World :=
  {| table := t; temp_tables := ∅; dfs := []; stdout := []; storage_log := [] |}.

Definition merged_once : World :=
  (increment_table healthy [row_a; row_b] (world_with [row_b])).2.

Definition load_aborts : Faults :=
  {| connect_fault := None; create_fault := None;
     copy_fault := Some (ProgrammingError "COPY INTO failed");
     merge_fault := None; chunks := 0 |}.

Definition noon : Q := 3400000001 # 2.

(** A clock that accepts every sleep the interpreter lets through. *)
Definition any_sleep : positive := 9223372036.
Definition steady_clock (k : nat) : Q := noon.

Definition plain_response (status : nat) (h : gmap string string) (body : string)
  : Response :=
  {| status_code := status; headers := h; content := body;
     json := inl (JSONDecodeError "Expecting value: line 1 column 1 (char 0)");
     links := ∅ |}.

Definition always (r : Response) : Env :=
  {| server := λ _ _, r; clock := steady_clock;
     sleep_limit := λ _, any_sleep;
     since_date := "2023-07-29T12:00:00.000000" |}.

(** The relations every page but the first carries besides [next]. *)
Definition back_links (p : nat) : gmap string string :=
  if Nat.leb p 1 then ∅ else {[ "prev" := "prev"; "first" := "first" ]}.

Definition item (who when : string) : CommitItem :=
  {| sha := "";
     commit := {| author := {| name := who; email := ""; date := when |};
                  message := "" |} |}.

Definition repo_ok : Repo :=
  {| OWNER := "scroll-tech"; NAME := "scroll";
     URL := "https://github.com/scroll-tech/scroll" |}.
Definition repo_bad : Repo :=
  {| OWNER := "scroll-tech"; NAME := "gone";
     URL := "https://github.com/scroll-tech/gone" |}.

Definition sample_task : Task :=
  λ owner repo,
    if String.eqb repo "scroll" then inr [row_a; row_b]
    else inl (Exception "Failed to fetch commit history: b'Not Found'").

(** Two 403 answers that ask to wait until three seconds past [noon], then
    the synthetic source. *)
Definition throttled_twice (pages : list (list CommitItem)) : Env :=
  {| server := λ i request,
       if Nat.ltb i 2
       then plain_response 403 {[ "X-RateLimit-Reset" := "1700000003" ]} ""
       else page_response pages back_links (req_page request);
     clock := steady_clock;
     sleep_limit := λ _, any_sleep;
     since_date := "2023-07-29T12:00:00.000000" |}.

Definition two_pages : list (list CommitItem) :=
  [[item "alice" "2023-08-01T10:00:00Z"]; [item "bob" "2023-08-02T11:30:00Z"]].

Definition sample_api : string → string → Env :=
  λ owner repo,
    if String.eqb repo "scroll" then throttled_twice two_pages
    else always (plain_response 404 ∅ "Not Found").

(** ** Further notions used to state properties of the code *)

(** The requests of a trace, in order. *)
Fixpoint requests_of (tr : list Event) : list Request :=
  match tr with
  | [] => []
  | EGet r :: tr' => r :: requests_of tr'
  | ESleep _ :: tr' => requests_of tr'
  end.

(** The answers to a list of requests of which the first is the [i]-th of
    the conversation. *)
Fixpoint answers (env : Env) (i : nat) (reqs : list Request) : list Response :=
  match reqs with
  | [] => []
  | q :: reqs' => server env i q :: answers env (S i) reqs'
  end.

(** The rows the loop takes from one answer: those of a 200, none of a 403. *)
Definition rows_of (owner repo : string) (r : Response) : list Row :=
  if Nat.eqb (status_code r) 200
  then match json r with
       | inr data => map (to_row owner repo) data
       | inl _ => []
       end
  else [].

(** The shape of every trace of the loop standing at page [p]: a request
    for [p] is followed by the rest of the trace at [p + 1], or by a wait
    that is not negative, one more second, and the rest of the trace at [p]
    again. *)
Inductive paced (mk : nat → Request) : nat → list Event → Prop :=
| paced_end (p : nat) : paced mk p []
| paced_next (p : nat) (tr : list Event) :
    paced mk (S p) tr → paced mk p (EGet (mk p) :: tr)
| paced_retry (p : nat) (w : Z) (tr : list Event) :
    (0 ≤ w)%Z → paced mk p tr →
    paced mk p (EGet (mk p) :: ESleep w :: ESleep 1 :: tr).

(** Texts that [repr] leaves as they are between the quotes: printable
    characters other than the quotes and the backslash. *)
Definition plain_char (a : ascii) : bool :=
  let n := nat_of_ascii a in
  Nat.leb 32 n && Nat.ltb n 127
  && negb (Ascii.eqb a squote) && negb (Ascii.eqb a dquote)
  && negb (Ascii.eqb a backslash).

Fixpoint plain_text (s : string) : bool :=
  match s with
  | EmptyString => true
  | String a r => plain_char a && plain_text r
  end.

(** *** The names read from the environment when the module is loaded

    Lines 15 and 22 to 25 read five variables with [os.environ[...]], in this
    order; a missing one raises [KeyError] with its name ([inl name]). *)
Record Config := {
  bearer : string;
  HEADERS : gmap string string;
  SNOWFLAKE_USER : string;
  SNOWFLAKE_PASS : string;
  SNOWFLAKE_ACCOUNT : string;
  SNOWFLAKE_WAREHOUSE : string
}.

Definition environ_get (environ : gmap string string) (key : string)
  : string + string :=
  match environ !! key with
  | Some v => inr v
  | None => inl key
  end.

Definition load_module (environ : gmap string string) : string + Config :=
  match environ_get environ "BEARER_TOKEN" with
  | inl k => inl k
  | inr token =>
      let bearer := String.append "Bearer " token in
      let HEADERS : gmap string string :=
        {[ "Accept" := "application/vnd.github.v3+json";
           "Authorization" := bearer ]} in
      match environ_get environ "SNOWFLAKE_USER" with
      | inl k => inl k
      | inr user =>
          match environ_get environ "SNOWFLAKE_PASS" with
          | inl k => inl k
          | inr pass =>
              match environ_get environ "SNOWFLAKE_ACCOUNT" with
              | inl k => inl k
              | inr account =>
                  match environ_get environ "SNOWFLAKE_WAREHOUSE" with
                  | inl k => inl k
                  | inr warehouse =>
                      inr {| bearer := bearer; HEADERS := HEADERS;
                             SNOWFLAKE_USER := user; SNOWFLAKE_PASS := pass;
                             SNOWFLAKE_ACCOUNT := account;
                             SNOWFLAKE_WAREHOUSE := warehouse |}
                  end
              end
          end
      end
  end.

Definition environ_names : list string :=
  ["BEARER_TOKEN"; "SNOWFLAKE_USER"; "SNOWFLAKE_PASS"; "SNOWFLAKE_ACCOUNT";
   "SNOWFLAKE_WAREHOUSE"].

(** What a call of [fetch_commit_history] that came to an end hands to
    [future.result()]. *)
Definition ended (r : outcome (list Row) * list Event) : option (exn + list Row) :=
  match r.1 with
  | Returned data => Some (inr data)
  | Raised e => Some (inl e)
  | Running => None
  end.

(** The task submitted for [repo] is its fetch against the server [api]
    gives it, and that fetch comes to an end. *)
Definition fetch_ends (api : string → string → Env) (task : Task) (repo : Repo)
  : Prop :=
  ∃ fuel,
    ended (fetch_commit_history fuel (api (OWNER repo) (NAME repo))
             (OWNER repo) (NAME repo))
    = Some (task (OWNER repo) (NAME repo)).

(** A server that refuses every request and asks to wait until [reset]. *)
Definition always_throttled (reset : string) : Env :=
  always (plain_response 403 {[ "X-RateLimit-Reset" := reset ]} "").

Definition sample_environ : gmap string string :=
  {[ "BEARER_TOKEN" := "ghp_token"; "SNOWFLAKE_USER" := "scroll";
     "SNOWFLAKE_PASS" := "secret"; "SNOWFLAKE_ACCOUNT" := "ab12345";
     "SNOWFLAKE_WAREHOUSE" := "COMPUTE_WH" ]}.

(** * Properties *)

(** ** The merge statement *)

Lemma same_key_eq (t s : Row) : same_key t s = true ↔ t = s.
Proof.
  unfold same_key. rewrite !andb_true_iff, !bool_decide_eq_true.
  destruct t, s; simpl. split.
  - intros [[-> ->] ->]. reflexivity.
  - intros [= -> -> ->]. auto.
Qed.

Lemma not_exists_spec (target : list Row) (s : Row) :
  not_exists target s = true ↔ s ∉ target.
Proof.
  unfold not_exists. rewrite negb_true_iff, <- not_true_iff_false, existsb_exists.
  split.
  - intros H Hin. apply H. exists s. split.
    + by apply list_elem_of_In.
    + by apply same_key_eq.
  - intros H (t & Hin & Hk). apply same_key_eq in Hk. subst t.
    apply H. by apply list_elem_of_In.
Qed.

Lemma rows_to_insert_present (target staging : list Row) :
  (∀ s, s ∈ staging → s ∈ target) → rows_to_insert target staging = [].
Proof.
  unfold rows_to_insert. induction staging as [|s staging IH]; intros H; simpl.
  - reflexivity.
  - destruct (not_exists target s) eqn:E.
    + apply not_exists_spec in E. destruct E. apply H. left.
    + apply IH. intros x Hx. apply H. by right.
Qed.

Lemma staging_in_merged (target staging : list Row) (s : Row) :
  s ∈ staging → s ∈ insert_not_exists target staging.
Proof.
  intros Hs. unfold insert_not_exists, rows_to_insert. apply elem_of_app.
  destruct (not_exists target s) eqn:E.
  - right. apply list_elem_of_In, filter_In. split; [by apply list_elem_of_In|done].
  - left. apply not_true_iff_false in E. rewrite not_exists_spec in E.
    by destruct (decide (s ∈ target)).
Qed.

Lemma insert_not_exists_again (target staging : list Row) :
  insert_not_exists (insert_not_exists target staging) staging
  = insert_not_exists target staging.
Proof.
  unfold insert_not_exists at 1.
  rewrite rows_to_insert_present, app_nil_r; [done|].
  intros s. apply staging_in_merged.
Qed.

Lemma unique_keys_NoDup (t : list Row) : unique_keys t ↔ NoDup t.
Proof.
  rewrite NoDup_alt. unfold unique_keys. split.
  - intros H i j x Hi Hj. apply (H i j x x Hi Hj). by apply same_key_eq.
  - intros H i j r s Hi Hj Hk. apply same_key_eq in Hk. subst s. eauto.
Qed.

Lemma insert_not_exists_NoDup (target staging : list Row) :
  NoDup target → NoDup staging → NoDup (insert_not_exists target staging).
Proof.
  intros Ht Hs. unfold insert_not_exists, rows_to_insert. apply NoDup_app.
  split; [done|]. split.
  - intros x Hx Hin. apply list_elem_of_In, filter_In in Hin as [_ Hne].
    by apply not_exists_spec in Hne.
  - apply NoDup_ListNoDup, List.NoDup_filter. by apply NoDup_ListNoDup.
Qed.

(** ** [increment_table] *)

Ltac run_M :=
  unfold increment_table, write_pandas, execute_merge, check_fault, raise,
    mbind, M_bind, mret, M_ret, effect, get_world;
  cbn [temp_tables set_temp_tables log_op set_table set_dfs table print
       stdout storage_log dfs connect_fault create_fault copy_fault
       merge_fault chunks].

Ltac run_increment_table :=
  run_M;
  repeat (rewrite lookup_insert_eq;
          cbn [temp_tables set_temp_tables log_op set_table set_dfs table print
               stdout storage_log dfs default]);
  rewrite ?app_nil_l.

Lemma drop_length_app {A} (l k : list A) : drop (length l) (l ++ k) = k.
Proof. by rewrite drop_app_length. Qed.

Lemma new_ops_log (w : World) (ops : list StorageOp) (w' : World) :
  storage_log w' = storage_log w ++ ops → new_ops w w' = ops.
Proof. unfold new_ops. intros ->. apply drop_length_app. Qed.

(** A run without faults: the merge happened, and the line printed counts
    the rows of the data frame. *)
Lemma increment_table_returns (f : Faults) (df : list Row) (w : World) :
  no_faults f →
  ∃ w', increment_table f df w = (inr tt, w')
        ∧ table w' = insert_not_exists (table w) df
        ∧ stdout w' = stdout w ++ [success_line (length df)]
        ∧ temp_tables w' = ∅
        ∧ dfs w' = dfs w.
Proof.
  intros (H1 & H2 & H3 & H4). eexists.
  unfold increment_table, write_pandas, execute_merge.
  rewrite H1, H2, H3, H4. run_increment_table. unfold id.
  split; [reflexivity|]. cbn. auto.
Qed.

(** A run with a fault: it raises, and the permanent table and the output
    are as before. *)
Lemma increment_table_raises (f : Faults) (df : list Row) (w : World) :
  ¬ no_faults f →
  ∃ e w', increment_table f df w = (inl e, w')
          ∧ table w' = table w ∧ stdout w' = stdout w
          ∧ forallb (λ op, negb (is_merge op)) (new_ops w w') = true.
Proof.
  intros Hf. unfold no_faults in Hf.
  destruct f as [c1 c2 c3 c4 n]; simpl in Hf.
  destruct c1 as [e1|].
  { exists e1, w. run_increment_table. simpl. repeat split.
    unfold new_ops. by rewrite drop_all. }
  destruct c2 as [e2|].
  { exists e2. eexists. run_increment_table. simpl.
    split; [reflexivity|]. cbn [table stdout log_op]. repeat split.
    by erewrite new_ops_log by (cbn; reflexivity). }
  destruct c3 as [e3|].
  { exists e3. eexists. run_increment_table. simpl.
    split; [reflexivity|]. cbn [table stdout log_op set_temp_tables]. repeat split.
    erewrite new_ops_log; [|cbn; rewrite <- app_assoc; reflexivity]. done. }
  destruct c4 as [e4|].
  { exists e4. eexists. run_increment_table. simpl.
    split; [reflexivity|]. cbn [table stdout log_op set_temp_tables]. repeat split.
    erewrite new_ops_log; [|cbn; rewrite <- !app_assoc; reflexivity]. done. }
  destruct Hf. auto.
Qed.

Lemma no_faults_dec (f : Faults) : {no_faults f} + {¬ no_faults f}.
Proof.
  unfold no_faults.
  destruct (connect_fault f), (create_fault f), (copy_fault f), (merge_fault f);
    first [left; by auto | right; intros (?&?&?&?); congruence].
Qed.

Lemma increment_table_table (f : Faults) (df : list Row) (w : World) :
  table (increment_table f df w).2 = table w
  ∨ table (increment_table f df w).2 = insert_not_exists (table w) df.
Proof.
  destruct (no_faults_dec f) as [Hf|Hf].
  - destruct (increment_table_returns f df w Hf) as (w' & -> & Ht & _). by right.
  - destruct (increment_table_raises f df w Hf) as (e & w' & -> & Ht & _). by left.
Qed.

Lemma increment_table_inr (f : Faults) (df : list Row) (w w' : World) :
  increment_table f df w = (inr tt, w') →
  table w' = insert_not_exists (table w) df
  ∧ stdout w' = stdout w ++ [success_line (length df)].
Proof.
  intros H. destruct (no_faults_dec f) as [Hf|Hf].
  - destruct (increment_table_returns f df w Hf) as (w1 & E & Ht & Ho & _).
    rewrite E in H. by injection H as <-.
  - destruct (increment_table_raises f df w Hf) as (e & w1 & E & _).
    rewrite E in H. discriminate.
Qed.

(** C1. Merging a batch a second time changes nothing: once a call of
    [increment_table] has returned, every row of the batch is in the permanent
    table, the merge statement of a second call over the same batch selects
    no row, and the permanent table after the second call (whatever that call
    meets) is the table the first call left. *)
Theorem increment_table_idempotent (f1 f2 : Faults) (df : list Row) (w w1 : World) :
  increment_table f1 df w = (inr tt, w1) →
  (∀ s, s ∈ df → s ∈ table w1)
  ∧ rows_to_insert (table w1) df = []
  ∧ table (increment_table f2 df w1).2 = table w1.
Proof.
  intros H1. apply increment_table_inr in H1 as [Ht _].
  assert (Hin : ∀ s, s ∈ df → s ∈ table w1).
  { intros s Hs. rewrite Ht. by apply staging_in_merged. }
  split; [exact Hin|]. split.
  - by apply rows_to_insert_present.
  - destruct (increment_table_table f2 df w1) as [->| ->]; [done|].
    rewrite Ht. apply insert_not_exists_again.
Qed.

Lemma increment_table_idempotent_witness :
  increment_table healthy [row_a; row_b] (world_with [row_b])
  = (inr tt, merged_once)
  ∧ (∀ s, s ∈ [row_a; row_b] → s ∈ table merged_once)
  ∧ rows_to_insert (table merged_once) [row_a; row_b] = []
  ∧ table (increment_table load_aborts [row_a; row_b] merged_once).2
    = table merged_once.
Proof.
  assert (H : increment_table healthy [row_a; row_b] (world_with [row_b])
              = (inr tt, merged_once)).
  { vm_compute. reflexivity. }
  split; [exact H|].
  exact (increment_table_idempotent healthy load_aborts [row_a; row_b]
           (world_with [row_b]) merged_once H).
Defined.

(** C2, as stated, fails: a batch that holds the same triple twice, merged
    into an empty table, leaves both copies in the table. *)
Lemma increment_table_duplicate_batch :
  unique_keys (table (world_with []))
  ∧ increment_table healthy [row_a; row_a] (world_with [])
    = (inr tt, (increment_table healthy [row_a; row_a] (world_with [])).2)
  ∧ table (increment_table healthy [row_a; row_a] (world_with [])).2
    = [row_a; row_a]
  ∧ ¬ unique_keys (table (increment_table healthy [row_a; row_a] (world_with [])).2).
Proof.
  split; [|split; [|split]].
  - apply unique_keys_NoDup. constructor.
  - vm_compute. reflexivity.
  - vm_compute. reflexivity.
  - intros H. specialize (H 0 1 row_a row_a). discriminate H.
    + vm_compute. reflexivity.
    + vm_compute. reflexivity.
    + vm_compute. reflexivity.
Qed.

(** C2, amended. When no two rows of the permanent table share their triple
    and no two rows of the incoming batch do, no two rows of the table share
    it after [increment_table], whether the call returns or raises. *)
Theorem increment_table_unique_keys (f : Faults) (df : list Row) (w : World) :
  unique_keys (table w) → unique_keys df →
  unique_keys (table (increment_table f df w).2).
Proof.
  rewrite !unique_keys_NoDup. intros Ht Hd.
  destruct (increment_table_table f df w) as [->| ->]; [done|].
  by apply insert_not_exists_NoDup.
Qed.

Lemma increment_table_unique_keys_witness :
  unique_keys (table (world_with [row_b])) ∧ unique_keys [row_a; row_b]
  ∧ unique_keys (table (increment_table healthy [row_a; row_b] (world_with [row_b])).2).
Proof.
  assert (H1 : unique_keys (table (world_with [row_b]))).
  { apply unique_keys_NoDup. simpl. apply NoDup_singleton. }
  assert (H2 : unique_keys [row_a; row_b]).
  { apply unique_keys_NoDup. apply NoDup_cons. split.
    - intros H. apply list_elem_of_singleton in H. discriminate H.
    - apply NoDup_singleton. }
  split; [exact H1|]. split; [exact H2|].
  exact (increment_table_unique_keys healthy [row_a; row_b] (world_with [row_b]) H1 H2).
Defined.

(** C8. When opening the connection, creating the temporary table or loading
    it raises, [increment_table] raises that exception, the permanent table is
    as it was before the call, and the merge statement was not sent. *)
Theorem increment_table_staging_failure (f : Faults) (df : list Row) (w : World) (e : exn) :
  staging_fault f = Some e →
  ∃ w', increment_table f df w = (inl e, w')
        ∧ table w' = table w
        ∧ forallb (λ op, negb (is_merge op)) (new_ops w w') = true.
Proof.
  unfold staging_fault. intros Hf.
  destruct f as [c1 c2 c3 c4 n]; simpl in Hf.
  destruct c1 as [e1|].
  { injection Hf as ->. exists w. run_increment_table. repeat split.
    unfold new_ops. by rewrite drop_all. }
  destruct c2 as [e2|].
  { injection Hf as ->. eexists. run_increment_table.
    split; [reflexivity|]. cbn [table log_op]. split; [done|].
    by erewrite new_ops_log by (cbn; reflexivity). }
  subst c3. eexists. run_increment_table.
  split; [reflexivity|]. cbn [table log_op set_temp_tables]. split; [done|].
  erewrite new_ops_log; [|cbn; rewrite <- app_assoc; reflexivity]. done.
Qed.

Lemma increment_table_staging_failure_witness :
  staging_fault load_aborts = Some (ProgrammingError "COPY INTO failed")
  ∧ ∃ w', increment_table load_aborts [row_a] (world_with [row_b])
          = (inl (ProgrammingError "COPY INTO failed"), w')
          ∧ table w' = table (world_with [row_b])
          ∧ forallb (λ op, negb (is_merge op)) (new_ops (world_with [row_b]) w') = true.
Proof.
  split.
  - reflexivity.
  - apply (increment_table_staging_failure load_aborts [row_a] (world_with [row_b])).
    reflexivity.
Defined.

(** C9, on the failing input. The table already holds the one row of the
    batch: the merge inserts nothing, the table is unchanged, and the line
    printed says one row was inserted, which is the number of rows loaded
    into the temporary table. *)
Theorem increment_table_reports_staged_rows :
  let r := increment_table healthy [row_a] (world_with [row_a]) in
  r.1 = inr tt
  ∧ table r.2 = [row_a]
  ∧ rows_to_insert [row_a] [row_a] = []
  ∧ stdout r.2
    = ["DataFrame successfully written to SCROLLSTATS_GIT_COMMITS. Rows inserted: 1"].
Proof. vm_compute. repeat split; reflexivity. Qed.

(** ** [wait_for_rate_limit] *)

Lemma int_of_float_mono (p q : Q) : (p <= q)%Q → (int_of_float p ≤ int_of_float q)%Z.
Proof.
  unfold Qle, int_of_float. intros H.
  rewrite <- (Z.quot_mul_cancel_r (Qnum p) (Zpos (Qden p)) (Zpos (Qden q))) by lia.
  rewrite <- (Z.quot_mul_cancel_r (Qnum q) (Zpos (Qden q)) (Zpos (Qden p))) by lia.
  rewrite (Z.mul_comm (Zpos (Qden q)) (Zpos (Qden p))).
  apply Z.quot_le_mono; lia.
Qed.

Lemma time_sleep_accepts (limit : positive) (seconds : Z) :
  (0 ≤ seconds)%Z → sleep_accepts limit seconds →
  time_sleep limit seconds = inr seconds.
Proof.
  intros H0 [H1 H2]. unfold time_sleep.
  rewrite (proj2 (Z.ltb_ge seconds 0)) by lia.
  rewrite (proj2 (Z.ltb_ge SLEEP_MAX seconds)) by lia.
  by rewrite (proj2 (Z.ltb_ge (Zpos limit) seconds)) by lia.
Qed.

Lemma time_sleep_inr (limit : positive) (seconds slept : Z) :
  time_sleep limit seconds = inr slept →
  slept = seconds ∧ (0 ≤ seconds)%Z ∧ sleep_accepts limit seconds.
Proof.
  unfold time_sleep, sleep_accepts.
  destruct (Z.ltb_spec seconds 0); [discriminate|].
  destruct (Z.ltb_spec SLEEP_MAX seconds); [discriminate|].
  destruct (Z.ltb_spec (Zpos limit) seconds); [discriminate|].
  intros [= <-]. auto.
Qed.

Lemma sleep_accepts_max (limit : positive) (seconds : Z) :
  sleep_accepts limit seconds → sleep_accepts limit (Z.max 0 seconds).
Proof. unfold sleep_accepts, SLEEP_MAX. lia. Qed.

(** C7, as stated, fails: a reset header that is not a number makes the
    call raise [ValueError]. *)
Lemma wait_for_rate_limit_malformed_reset :
  wait_for_rate_limit {[ "X-RateLimit-Reset" := "soon" ]} noon noon any_sleep
  = inl (ValueError "invalid literal for int() with base 10: 'soon'").
Proof. vm_compute. reflexivity. Qed.

(** C7, amended. On headers without [X-RateLimit-Reset], or with one that
    [int] reads, and when the time to wait is one [time.sleep] takes,
    [wait_for_rate_limit] does not raise and sleeps a time that is not
    negative; without the header, and with a clock that does not run
    backwards between the two readings, the time is zero. *)
Theorem wait_for_rate_limit_returns (h : gmap string string) (t1 t2 : Q)
    (limit : positive) :
  reset_readable h → wait_in_reach h t1 t2 limit →
  ∃ seconds, wait_for_rate_limit h t1 t2 limit = inr seconds
             ∧ (0 ≤ seconds)%Z
             ∧ (h !! "X-RateLimit-Reset" = None → (t1 <= t2)%Q → seconds = 0%Z).
Proof.
  unfold reset_readable, wait_in_reach, wait_for_rate_limit, int_of_str, int_literal.
  destruct (h !! "X-RateLimit-Reset") as [v|] eqn:E.
  - destruct (parse_int v) as [z| |d]; intros [z' Hz] Hr; try discriminate.
    exists (Z.max 0 (z - int_of_float t2)).
    rewrite time_sleep_accepts; [|lia|by apply sleep_accepts_max, Hr].
    split; [reflexivity|]. split; [lia|]. discriminate.
  - intros _ Hr. exists (Z.max 0 (int_of_float t1 - int_of_float t2)).
    rewrite time_sleep_accepts; [|lia|by apply sleep_accepts_max].
    split; [reflexivity|]. split; [lia|].
    intros _ Hle. apply int_of_float_mono in Hle. lia.
Qed.

Lemma wait_for_rate_limit_returns_witness :
  reset_readable {[ "X-RateLimit-Reset" := "1700000003" ]}
  ∧ wait_in_reach {[ "X-RateLimit-Reset" := "1700000003" ]} noon noon any_sleep
  ∧ ∃ seconds,
      wait_for_rate_limit {[ "X-RateLimit-Reset" := "1700000003" ]} noon noon any_sleep
      = inr seconds
      ∧ (0 ≤ seconds)%Z
      ∧ (({[ "X-RateLimit-Reset" := "1700000003" ]} : gmap string string)
           !! "X-RateLimit-Reset" = None →
         (noon <= noon)%Q → seconds = 0%Z).
Proof.
  assert (H1 : reset_readable {[ "X-RateLimit-Reset" := "1700000003" ]}).
  { vm_compute. eexists. reflexivity. }
  assert (H2 : wait_in_reach {[ "X-RateLimit-Reset" := "1700000003" ]}
                 noon noon any_sleep).
  { unfold wait_in_reach. rewrite lookup_singleton_eq.
    intros reset Hr. vm_compute in Hr. injection Hr as <-.
    split; vm_compute; discriminate. }
  split; [exact H1|]. split; [exact H2|].
  exact (wait_for_rate_limit_returns _ noon noon any_sleep H1 H2).
Defined.

(** ** [fetch_commit_history] *)

Lemma emit_app {A} (e1 e2 : list Event) (r : outcome A * list Event) :
  emit e1 (emit e2 r) = emit (e1 ++ e2) r.
Proof. unfold emit. simpl. by rewrite app_assoc. Qed.

Lemma emit_nil {A} (r : outcome A * list Event) : emit [] r = r.
Proof. by destruct r. Qed.

(** One turn of the loop on a 403 answer on which the limiter returns. *)
Lemma fetch_loop_403 (fuel : nat) (env : Env) (owner repo : string)
    (i c page : nat) (hist : list Row) (seconds : Z) :
  let request := mk_request env owner repo page in
  status_code (server env i request) = 403 →
  wait_for_rate_limit (headers (server env i request))
    (clock env c) (clock env (S c)) (sleep_limit env c) = inr seconds →
  fetch_loop (S fuel) env owner repo i c page hist
  = emit [EGet request; ESleep seconds; ESleep 1]
      (fetch_loop fuel env owner repo (S i) (S (S c)) page hist).
Proof.
  intros request Hs Hw. cbn [fetch_loop]. fold request.
  rewrite Hs, Hw. simpl Nat.eqb. cbv iota. by rewrite emit_app.
Qed.

(** One turn of the loop on a 200 answer. *)
Lemma fetch_loop_200 (fuel : nat) (env : Env) (owner repo : string)
    (i c page : nat) (hist : list Row) (data : list CommitItem) :
  let request := mk_request env owner repo page in
  status_code (server env i request) = 200 →
  json (server env i request) = inr data →
  fetch_loop (S fuel) env owner repo i c page hist
  = emit [EGet request]
      (if bool_decide (is_Some (links (server env i request) !! "next"))
       then fetch_loop fuel env owner repo (S i) c (S page)
              (hist ++ map (to_row owner repo) data)
       else (Returned (hist ++ map (to_row owner repo) data), [])).
Proof.
  intros request Hs Hj. cbn [fetch_loop]. fold request.
  rewrite Hs, Hj. reflexivity.
Qed.

(** C5, as stated, fails: the exception of a 404 names the body of the
    answer and nothing of the repository; the same exception comes out for
    another repository. *)
Lemma fetch_commit_history_error_without_repository :
  (fetch_commit_history 5 (always (plain_response 404 ∅ "Not Found"))
     "scroll-tech" "scroll").1
  = Raised (Exception "Failed to fetch commit history: b'Not Found'")
  ∧ contains "scroll" "Failed to fetch commit history: b'Not Found'" = false
  ∧ (fetch_commit_history 5 (always (plain_response 404 ∅ "Not Found"))
       "ethereum" "go-ethereum").1
    = Raised (Exception "Failed to fetch commit history: b'Not Found'").
Proof. vm_compute. repeat split; reflexivity. Qed.

(** C5, amended. On an answer whose status is neither 200 nor 403 the loop
    stops at once, whatever was gathered from earlier pages: the call raises
    an exception whose text is the fixed prefix followed by the body of the
    answer as Python prints bytes, the repository is not part of it, and
    nothing is returned. *)
Theorem fetch_loop_error_status (fuel : nat) (env : Env) (owner repo : string)
    (i c page : nat) (hist : list Row) :
  status_code (server env i (mk_request env owner repo page)) ≠ 200 →
  status_code (server env i (mk_request env owner repo page)) ≠ 403 →
  fetch_loop (S fuel) env owner repo i c page hist
  = (Raised (Exception ("Failed to fetch commit history: "
                        ++ bytes_repr (content (server env i
                                          (mk_request env owner repo page))))),
     [EGet (mk_request env owner repo page)]).
Proof.
  intros H200 H403. cbn [fetch_loop].
  apply Nat.eqb_neq in H200, H403. rewrite H200, H403. reflexivity.
Qed.

Lemma fetch_loop_error_status_witness :
  status_code (server (always (plain_response 500 ∅ "oops")) 3
                 (mk_request (always (plain_response 500 ∅ "oops")) "a" "b" 2)) ≠ 200
  ∧ status_code (server (always (plain_response 500 ∅ "oops")) 3
                   (mk_request (always (plain_response 500 ∅ "oops")) "a" "b" 2)) ≠ 403
  ∧ fetch_loop 1 (always (plain_response 500 ∅ "oops")) "a" "b" 3 0 2 [row_a]
    = (Raised (Exception ("Failed to fetch commit history: "
                          ++ bytes_repr (content (server (always (plain_response 500 ∅ "oops")) 3
                               (mk_request (always (plain_response 500 ∅ "oops")) "a" "b" 2))))),
       [EGet (mk_request (always (plain_response 500 ∅ "oops")) "a" "b" 2)]).
Proof.
  assert (H1 : status_code (server (always (plain_response 500 ∅ "oops")) 3
                 (mk_request (always (plain_response 500 ∅ "oops")) "a" "b" 2)) ≠ 200).
  { simpl. lia. }
  assert (H2 : status_code (server (always (plain_response 500 ∅ "oops")) 3
                 (mk_request (always (plain_response 500 ∅ "oops")) "a" "b" 2)) ≠ 403).
  { simpl. lia. }
  split; [exact H1|]. split; [exact H2|].
  exact (fetch_loop_error_status 0 (always (plain_response 500 ∅ "oops"))
           "a" "b" 3 0 2 [row_a] H1 H2).
Defined.

(** C4, as stated, fails: on a 403 whose reset header is not a number the
    limiter raises, the call ends with that [ValueError], and the page was
    requested once and never again. *)
Lemma fetch_commit_history_403_malformed_reset :
  fetch_commit_history 10
    (always (plain_response 403 {[ "X-RateLimit-Reset" := "soon" ]} ""))
    "scroll-tech" "scroll"
  = (Raised (ValueError "invalid literal for int() with base 10: 'soon'"),
     [EGet (mk_request
              (always (plain_response 403 {[ "X-RateLimit-Reset" := "soon" ]} ""))
              "scroll-tech" "scroll" 1)]).
Proof. vm_compute. reflexivity. Qed.

Lemma fetch_loop_throttled (n : nat) :
  ∀ (fuel : nat) (env : Env) (owner repo : string) (i c page : nat)
    (hist : list Row) (w : nat → Z),
  (∀ k, k < n →
     status_code (server env (i + k) (mk_request env owner repo page)) = 403
     ∧ wait_for_rate_limit
         (headers (server env (i + k) (mk_request env owner repo page)))
         (clock env (c + 2 * k)) (clock env (S (c + 2 * k)))
         (sleep_limit env (c + 2 * k)) = inr (w k)) →
  fetch_loop (n + fuel) env owner repo i c page hist
  = emit (throttle_trace (mk_request env owner repo page) w n)
      (fetch_loop fuel env owner repo (i + n) (c + 2 * n) page hist).
Proof.
  induction n as [|n IH]; intros fuel env owner repo i c page hist w H.
  - simpl. rewrite !Nat.add_0_r. by rewrite emit_nil.
  - destruct (H 0 ltac:(lia)) as [Hs Hw].
    rewrite Nat.add_0_r in Hs. rewrite Nat.mul_0_r, !Nat.add_0_r in Hw.
    replace (S n + fuel) with (S (n + fuel)) by lia.
    rewrite (fetch_loop_403 _ _ _ _ _ _ _ _ (w 0) Hs Hw).
    rewrite (IH fuel env owner repo (S i) (S (S c)) page hist (λ k, w (S k))).
    + rewrite emit_app. cbn [throttle_trace].
      replace (S i + n) with (i + S n) by lia.
      replace (S (S c) + 2 * n) with (c + 2 * S n) by lia. reflexivity.
    + intros k Hk. destruct (H (S k) ltac:(lia)) as [Hs' Hw'].
      replace (S i + k) with (i + S k) by lia.
      replace (S (S c) + 2 * k) with (c + 2 * S k) by lia. auto.
Qed.

(** C4, amended. While the answers to the request of a page are 403 and the
    limiter returns on their headers, each of them is followed by the wait the
    limiter computed from its headers and by one more second, and then the
    loop is where it was: same page number, same gathered rows.  With a
    request left to make, that request is for the same page again. *)
Theorem fetch_loop_retries_same_page (n fuel : nat) (env : Env)
    (owner repo : string) (i c page : nat) (hist : list Row) (w : nat → Z) :
  (∀ k, k < n →
     status_code (server env (i + k) (mk_request env owner repo page)) = 403
     ∧ wait_for_rate_limit
         (headers (server env (i + k) (mk_request env owner repo page)))
         (clock env (c + 2 * k)) (clock env (S (c + 2 * k)))
         (sleep_limit env (c + 2 * k)) = inr (w k)) →
  fetch_loop (n + S fuel) env owner repo i c page hist
  = emit (throttle_trace (mk_request env owner repo page) w n)
      (fetch_loop (S fuel) env owner repo (i + n) (c + 2 * n) page hist)
  ∧ ∃ rest,
      (fetch_loop (n + S fuel) env owner repo i c page hist).2
      = throttle_trace (mk_request env owner repo page) w n
        ++ EGet (mk_request env owner repo page) :: rest.
Proof.
  intros H. rewrite (fetch_loop_throttled n (S fuel) env owner repo i c page hist w H).
  split; [reflexivity|].
  cbn [fetch_loop emit fst snd]. eexists. reflexivity.
Qed.

Lemma concat_drop_last {A} (l : list (list A)) (k : nat) :
  (length l ≤ S k)%nat → concat (drop k l) = default [] (l !! k).
Proof.
  intros H. destruct (l !! k) as [x|] eqn:E.
  - rewrite (drop_S _ _ _ E). rewrite drop_ge by lia. simpl. by rewrite app_nil_r.
  - rewrite drop_ge; [done|]. by apply lookup_ge_None.
Qed.

Lemma fetch_loop_synthetic (pages : list (list CommitItem))
    (others : nat → gmap string string) (clk : nat → Q) (lim : nat → positive)
    (since owner repo : string) (n : nat) :
  ∀ (fuel i c k : nat) (hist : list Row),
  S k + n = Nat.max 1 (length pages) → n < fuel →
  fetch_loop fuel (synthetic pages others clk lim since) owner repo i c (S k) hist
  = (Returned (hist ++ map (to_row owner repo) (concat (drop k pages))),
     map (λ p, EGet (mk_request (synthetic pages others clk lim since) owner repo p))
       (seq (S k) (S n))).
Proof.
  induction n as [|n IH]; intros fuel i c k hist Hk Hf;
    (destruct fuel as [|fuel]; [lia|]).
  - rewrite (fetch_loop_200 _ _ _ _ _ _ _ _ (page_items pages (S k)))
      by reflexivity.
    cbn [server synthetic page_response links req_page mk_request].
    destruct (Nat.ltb_spec (S k) (length pages)) as [Hlt|Hge]; [lia|].
    rewrite bool_decide_eq_false_2.
    + cbn [page_items]. rewrite concat_drop_last by lia. reflexivity.
    + rewrite lookup_delete_eq. by intros [? ?].
  - rewrite (fetch_loop_200 _ _ _ _ _ _ _ _ (page_items pages (S k)))
      by reflexivity.
    cbn [server synthetic page_response links req_page mk_request].
    destruct (Nat.ltb_spec (S k) (length pages)) as [Hlt|Hge]; [|lia].
    rewrite bool_decide_eq_true_2.
    + rewrite (IH fuel (S i) c (S k)) by lia.
      destruct (lookup_lt_is_Some_2 pages k ltac:(lia)) as [x Hx].
      cbn [page_items]. rewrite Hx, (drop_S _ _ _ Hx). cbn [default concat].
      rewrite map_app, app_assoc. reflexivity.
    + rewrite lookup_insert_eq. by eexists.
Qed.

(** C3. Against a synthetic source of [K] pages, whatever other links its
    pages carry, the call, given room for [max 1 K] requests, returns one row
    per item of the pages, in order, each made of the author date, the author
    name and [owner/repo]; its requests were for pages 1, 2, ... in turn, once
    each, 100 items a page, with the same address and date; with no page at
    all it asks for page 1, finds it empty and returns the empty list. *)
Theorem fetch_commit_history_all_pages (pages : list (list CommitItem))
    (others : nat → gmap string string) (clk : nat → Q) (lim : nat → positive)
    (since owner repo : string) (fuel : nat) :
  (Nat.max 1 (length pages) ≤ fuel)%nat →
  fetch_commit_history fuel (synthetic pages others clk lim since) owner repo
  = (Returned
       (map (λ item, {| row_date := date (author (commit item));
                        row_username := name (author (commit item));
                        row_repo_name := (owner ++ "/" ++ repo)%string |})
          (concat pages)),
     map (λ p, EGet {| req_url := ("https://api.github.com" ++ "/repos/" ++ owner
                                   ++ "/" ++ repo ++ "/commits")%string;
                       req_per_page := 100;
                       req_page := p;
                       req_since := since |})
       (seq 1 (Nat.max 1 (length pages)))).
Proof.
  intros Hf. unfold fetch_commit_history.
  destruct (Nat.max 1 (length pages)) as [|n] eqn:E; [lia|].
  rewrite (fetch_loop_synthetic pages others clk lim since owner repo n fuel 0 0 0 [])
    by lia.
  reflexivity.
Qed.

Lemma fetch_commit_history_all_pages_witness :
  (Nat.max 1 (length two_pages) ≤ 5)%nat
  ∧ fetch_commit_history 5 (synthetic two_pages back_links steady_clock (λ _, any_sleep) "")
      "scroll-tech" "scroll"
    = (Returned
         (map (λ item, {| row_date := date (author (commit item));
                          row_username := name (author (commit item));
                          row_repo_name := ("scroll-tech" ++ "/" ++ "scroll")%string |})
            (concat two_pages)),
       map (λ p, EGet {| req_url := ("https://api.github.com" ++ "/repos/" ++ "scroll-tech"
                                     ++ "/" ++ "scroll" ++ "/commits")%string;
                         req_per_page := 100;
                         req_page := p;
                         req_since := "" |})
         (seq 1 (Nat.max 1 (length two_pages)))).
Proof.
  assert (H : (Nat.max 1 (length two_pages) ≤ 5)%nat) by (simpl; lia).
  split; [exact H|].
  exact (fetch_commit_history_all_pages two_pages back_links steady_clock
           (λ _, any_sleep) "" "scroll-tech" "scroll" 5 H).
Defined.

Lemma fetch_loop_retries_same_page_witness :
  fetch_loop (2 + 3) (throttled_twice two_pages) "scroll-tech" "scroll" 0 0 1 []
  = emit (throttle_trace (mk_request (throttled_twice two_pages) "scroll-tech" "scroll" 1)
            (λ _, 3%Z) 2)
      (fetch_loop 3 (throttled_twice two_pages) "scroll-tech" "scroll" (0 + 2) (0 + 2 * 2) 1 [])
  ∧ ∃ rest,
      (fetch_loop (2 + 3) (throttled_twice two_pages) "scroll-tech" "scroll" 0 0 1 []).2
      = throttle_trace (mk_request (throttled_twice two_pages) "scroll-tech" "scroll" 1)
          (λ _, 3%Z) 2
        ++ EGet (mk_request (throttled_twice two_pages) "scroll-tech" "scroll" 1) :: rest.
Proof.
  apply (fetch_loop_retries_same_page 2 2 (throttled_twice two_pages)
           "scroll-tech" "scroll" 0 0 1 [] (λ _, 3%Z)).
  intros k Hk. destruct k as [|[|k]].
  - split; vm_compute; reflexivity.
  - split; vm_compute; reflexivity.
  - lia.
Defined.

(** ** [fetch_all_commit_histories] and the script *)

Lemma fetch_all_commit_histories_app (task : Task) (l k : list Repo) (w : World) :
  fetch_all_commit_histories task (l ++ k) w
  = fetch_all_commit_histories task k (fetch_all_commit_histories task l w).
Proof. unfold fetch_all_commit_histories. apply fold_left_app. Qed.

Lemma collected_dfs (task : Task) (completed : list Repo) :
  ∀ w, dfs (fetch_all_commit_histories task completed w)
       = dfs w ++ omap (task_data task) completed.
Proof.
  unfold fetch_all_commit_histories.
  induction completed as [|repo completed IH]; intros w; simpl.
  - by rewrite app_nil_r.
  - rewrite IH. unfold on_completed, task_data.
    destruct (task (OWNER repo) (NAME repo)) as [exc|data]; simpl.
    + reflexivity.
    + by rewrite <- app_assoc.
Qed.

Lemma collected_stdout (task : Task) (completed : list Repo) :
  ∀ w, stdout (fetch_all_commit_histories task completed w)
       = stdout w ++ map (report_line task) completed.
Proof.
  unfold fetch_all_commit_histories.
  induction completed as [|repo completed IH]; intros w; simpl.
  - by rewrite app_nil_r.
  - rewrite IH. unfold on_completed, report_line.
    destruct (task (OWNER repo) (NAME repo)) as [exc|data]; simpl;
      by rewrite <- app_assoc.
Qed.

Lemma collected_storage (task : Task) (completed : list Repo) :
  ∀ w, table (fetch_all_commit_histories task completed w) = table w
       ∧ storage_log (fetch_all_commit_histories task completed w) = storage_log w
       ∧ temp_tables (fetch_all_commit_histories task completed w) = temp_tables w.
Proof.
  unfold fetch_all_commit_histories.
  induction completed as [|repo completed IH]; intros w; simpl.
  - done.
  - destruct (IH (on_completed task w repo)) as (-> & -> & ->).
    unfold on_completed. by destruct (task (OWNER repo) (NAME repo)).
Qed.

Lemma omap_filter_None {A B} (f : A → option B) (P : A → Prop)
    `{∀ x, Decision (P x)} (l : list A) :
  (∀ x, ¬ P x → f x = None) → omap f (filter P l) = omap f l.
Proof.
  intros Hf. induction l as [|x l IH]; [done|].
  rewrite filter_cons. destruct (decide (P x)) as [Hp|Hp].
  - change (omap f (x :: filter P l)) with
      (match f x with Some y => y :: omap f (filter P l) | None => omap f (filter P l) end).
    rewrite IH. reflexivity.
  - change (omap f (x :: l)) with
      (match f x with Some y => y :: omap f l | None => omap f l end).
    by rewrite (Hf x Hp), IH.
Qed.

(** C6. Whatever the order in which the futures complete, a repository whose
    task raised costs the others nothing: the data frame of a repository that
    succeeded is in [dfs] and all its rows are in the concatenation, [dfs] is
    what it would be had the failing repository not been in the list, and the
    failing repository shows in the output, with its URL and the exception,
    on the one line printed for it. *)
Theorem fetch_all_commit_histories_isolates (task : Task)
    (repos completed : list Repo) (w : World) (R1 R2 : Repo)
    (d1 : list Row) (e : exn) :
  completed ≡ₚ repos → R1 ∈ repos → R2 ∈ repos →
  task (OWNER R1) (NAME R1) = inr d1 →
  task (OWNER R2) (NAME R2) = inl e →
  d1 ∈ dfs (fetch_all_commit_histories task completed w)
  ∧ (∀ r, r ∈ d1 → r ∈ concat (dfs (fetch_all_commit_histories task completed w)))
  ∧ pd_concat (dfs (fetch_all_commit_histories task completed w))
    = inr (concat (dfs (fetch_all_commit_histories task completed w)))
  ∧ dfs (fetch_all_commit_histories task completed w)
    = dfs (fetch_all_commit_histories task (filter (λ r, r ≠ R2) completed) w)
  ∧ stdout (fetch_all_commit_histories task completed w)
    = stdout w ++ map (report_line task) completed
  ∧ report_line task R2 = (URL R2 ++ " Generated an exception: " ++ exn_str e)%string
  ∧ report_line task R2 ∈ stdout (fetch_all_commit_histories task completed w).
Proof.
  intros Hp H1 H2 T1 T2.
  rewrite <- Hp in H1, H2.
  assert (Hd : d1 ∈ dfs (fetch_all_commit_histories task completed w)).
  { rewrite collected_dfs. apply elem_of_app. right.
    apply list_elem_of_omap. exists R1. split; [done|].
    unfold task_data. by rewrite T1. }
  split; [exact Hd|]. split.
  { intros r Hr. apply list_elem_of_In, in_concat. exists d1.
    split; by apply list_elem_of_In. }
  split.
  { destruct (dfs (fetch_all_commit_histories task completed w)) eqn:E.
    - by apply not_elem_of_nil in Hd.
    - reflexivity. }
  split.
  { rewrite !collected_dfs. f_equal. symmetry. apply omap_filter_None.
    intros x Hx. apply dec_stable in Hx. subst x.
    unfold task_data. by rewrite T2. }
  split; [apply collected_stdout|]. split.
  { unfold report_line. by rewrite T2. }
  rewrite collected_stdout. apply elem_of_app. right.
  by apply list_elem_of_fmap_2.
Qed.

Lemma fetch_all_commit_histories_isolates_witness :
  let w' := fetch_all_commit_histories sample_task [repo_bad; repo_ok] (world_with []) in
  [row_a; row_b] ∈ dfs w'
  ∧ (∀ r, r ∈ [row_a; row_b] → r ∈ concat (dfs w'))
  ∧ pd_concat (dfs w') = inr (concat (dfs w'))
  ∧ dfs w'
    = dfs (fetch_all_commit_histories sample_task
             (filter (λ r, r ≠ repo_bad) [repo_bad; repo_ok]) (world_with []))
  ∧ stdout w'
    = stdout (world_with []) ++ map (report_line sample_task) [repo_bad; repo_ok]
  ∧ report_line sample_task repo_bad
    = (URL repo_bad ++ " Generated an exception: "
       ++ exn_str (Exception "Failed to fetch commit history: b'Not Found'"))%string
  ∧ report_line sample_task repo_bad ∈ stdout w'.
Proof.
  apply (fetch_all_commit_histories_isolates sample_task [repo_ok; repo_bad]
           [repo_bad; repo_ok] (world_with []) repo_ok repo_bad [row_a; row_b]
           (Exception "Failed to fetch commit history: b'Not Found'")).
  - apply Permutation_swap.
  - apply list_elem_of_here.
  - apply list_elem_of_further, list_elem_of_here.
  - reflexivity.
  - reflexivity.
Defined.

(** C10. When every completed task raised (in particular when there is no
    repository at all), [dfs] stays empty, [pd.concat] raises, and the script
    ends there with that exception: [increment_table] is not called, nothing
    is sent to the warehouse and the permanent table is as it was. *)
Theorem main_fails_without_data (task : Task) (completed : list Repo)
    (f : Faults) (w : World) :
  (∀ repo, repo ∈ completed → task_data task repo = None) →
  ∃ w', main task completed f w
        = (inl (ValueError "No objects to concatenate"), w')
        ∧ dfs w' = []
        ∧ table w' = table w
        ∧ storage_log w' = storage_log w.
Proof.
  intros Hall.
  assert (Hd : dfs (fetch_all_commit_histories task completed (set_dfs [] w)) = []).
  { rewrite collected_dfs. simpl.
    induction completed as [|repo completed IH]; [done|]. simpl.
    rewrite (Hall repo) by apply list_elem_of_here.
    apply IH. intros r Hr. apply Hall. by apply list_elem_of_further. }
  exists (fetch_all_commit_histories task completed (set_dfs [] w)).
  unfold main. run_M. rewrite Hd. simpl.
  destruct (collected_storage task completed (set_dfs [] w)) as (Ht & Hl & _).
  by rewrite Ht, Hl.
Qed.

Lemma main_fails_without_data_witness :
  (∀ repo, repo ∈ [repo_bad] → task_data sample_task repo = None)
  ∧ ∃ w', main sample_task [repo_bad] healthy (world_with [row_a])
          = (inl (ValueError "No objects to concatenate"), w')
          ∧ dfs w' = []
          ∧ table w' = table (world_with [row_a])
          ∧ storage_log w' = storage_log (world_with [row_a]).
Proof.
  assert (H : ∀ repo, repo ∈ [repo_bad] → task_data sample_task repo = None).
  { intros repo Hr. apply list_elem_of_singleton in Hr. subst repo. reflexivity. }
  split; [exact H|].
  exact (main_fails_without_data sample_task [repo_bad] healthy (world_with [row_a]) H).
Defined.

(** ** Sample evaluations *)

Example int_samples :
  int_literal " 17_000 " = Some 17000%Z ∧ int_literal "-5" = Some (-5)%Z
  ∧ int_literal "1__0" = None ∧ int_literal "" = None ∧ int_literal "abc" = None
  ∧ int_literal (String (ascii_of_nat 160) "42") = Some 42%Z
  ∧ int_literal (String (ascii_of_nat 31) "42") = None.
Proof. repeat split; vm_compute; reflexivity. Qed.

Example wait_sample :
  wait_for_rate_limit {[ "X-RateLimit-Reset" := "1700000003" ]} noon noon any_sleep
  = inr 3%Z
  ∧ wait_for_rate_limit {[ "X-RateLimit-Reset" := "1600000000" ]} noon noon any_sleep
    = inr 0%Z
  ∧ wait_for_rate_limit {[ "X-RateLimit-Reset" := "99999999999" ]} noon noon any_sleep
    = inl (OverflowError "timestamp too large to convert to C _PyTime_t")
  ∧ wait_for_rate_limit {[ "X-RateLimit-Reset" := "10923372036" ]} noon noon
      9223363321%positive
    = inl (OSError "[Errno 22] Invalid argument").
Proof. repeat split; vm_compute; reflexivity. Qed.

Example merge_sample :
  insert_not_exists [row_b] [row_a; row_b; row_a] = [row_b; row_a; row_a]
  ∧ insert_not_exists [row_b; row_a; row_a] [row_a; row_b; row_a] = [row_b; row_a; row_a].
Proof. split; vm_compute; reflexivity. Qed.

Example throttled_sample :
  (fetch_commit_history 10 (throttled_twice two_pages) "scroll-tech" "scroll").1
  = Returned [ {| row_date := "2023-08-01T10:00:00Z"; row_username := "alice";
                  row_repo_name := "scroll-tech/scroll" |};
               {| row_date := "2023-08-02T11:30:00Z"; row_username := "bob";
                  row_repo_name := "scroll-tech/scroll" |} ]
  ∧ map (λ ev, match ev with EGet r => Some (req_page r) | ESleep _ => None end)
      (fetch_commit_history 10 (throttled_twice two_pages) "scroll-tech" "scroll").2
    = [Some 1; None; None; Some 1; None; None; Some 1; Some 2].
Proof. split; vm_compute; reflexivity. Qed.

(** * Further properties of the code *)

(** ** [wait_for_rate_limit] and [int] *)

Lemma int_of_float_floor (t : Q) : (0 <= t)%Q → int_of_float t = Qfloor t.
Proof.
  destruct t as [n d]. unfold Qle, int_of_float, Qfloor. simpl. intros H.
  apply Z.quot_div_nonneg; lia.
Qed.

Lemma wait_nonneg (h : gmap string string) (t1 t2 : Q) (limit : positive)
    (seconds : Z) :
  wait_for_rate_limit h t1 t2 limit = inr seconds → (0 ≤ seconds)%Z.
Proof.
  unfold wait_for_rate_limit.
  destruct (h !! "X-RateLimit-Reset") as [v|]; [destruct (int_of_str v)|];
    try discriminate; intros H; apply time_sleep_inr in H as (-> & H & _); lia.
Qed.

Lemma wait_readable (h : gmap string string) (t1 t2 : Q) (limit : positive) :
  reset_readable h → wait_in_reach h t1 t2 limit →
  ∃ seconds, wait_for_rate_limit h t1 t2 limit = inr seconds.
Proof.
  unfold reset_readable, wait_in_reach, wait_for_rate_limit, int_of_str, int_literal.
  destruct (h !! "X-RateLimit-Reset") as [v|].
  - destruct (parse_int v) as [z| |d]; intros [z' Hz] Hr; try discriminate.
    eexists. apply time_sleep_accepts; [lia|]. by apply sleep_accepts_max, Hr.
  - intros _ Hr. eexists. apply time_sleep_accepts; [lia|].
    by apply sleep_accepts_max.
Qed.

(** X1. With a reset header that [int] reads as [reset], a clock that shows
    a time that is not negative, and a wait that [time.sleep] takes, the call
    sleeps [max 0 (reset - floor now)] seconds: the sleep ends at or after the
    reset time, less than one second after it when there was anything to wait
    for, and a reset time that has passed gives no wait. *)
Theorem wait_for_rate_limit_until_reset (h : gmap string string) (v : string)
    (reset : Z) (t1 t2 : Q) (limit : positive) :
  h !! "X-RateLimit-Reset" = Some v → int_literal v = Some reset → (0 <= t2)%Q →
  sleep_accepts limit (reset - Qfloor t2) →
  ∃ seconds, wait_for_rate_limit h t1 t2 limit = inr seconds
    ∧ seconds = Z.max 0 (reset - Qfloor t2)
    ∧ (inject_Z reset <= t2 + inject_Z seconds)%Q
    ∧ ((0 < seconds)%Z → (t2 + inject_Z seconds < inject_Z reset + 1)%Q)
    ∧ ((inject_Z reset <= t2)%Q → seconds = 0%Z).
Proof.
  intros Hh Hv Ht Hs. unfold wait_for_rate_limit, int_of_str.
  unfold int_literal in Hv. rewrite Hh.
  destruct (parse_int v) as [z| |d]; try discriminate. injection Hv as ->.
  rewrite (int_of_float_floor t2 Ht).
  rewrite time_sleep_accepts; [|lia|by apply sleep_accepts_max].
  eexists. split; [reflexivity|]. split; [reflexivity|].
  pose proof (Qfloor_le t2) as Hlo. pose proof (Qlt_floor t2) as Hhi.
  rewrite inject_Z_plus in Hhi. change (inject_Z 1) with 1%Q in Hhi.
  split; [|split].
  - destruct (Z.max_spec 0 (reset - Qfloor t2)) as [[Hlt ->]|[Hge ->]].
    + unfold Zminus. rewrite inject_Z_plus, inject_Z_opp. lra.
    + assert (Hq : (inject_Z reset <= inject_Z (Qfloor t2))%Q)
        by (rewrite <- Zle_Qle; lia).
      change (inject_Z 0) with 0%Q. lra.
  - intros Hpos.
    rewrite Z.max_r by lia.
    unfold Zminus. rewrite inject_Z_plus, inject_Z_opp. lra.
  - intros Hpast. apply Z.max_l.
    assert (Hf : (reset ≤ Qfloor t2)%Z).
    { rewrite <- (Qfloor_Z reset). by apply Qfloor_resp_le. }
    lia.
Qed.

Lemma decimal_plain (d : Decimal.uint) :
  Forall (λ a, to_blank a = a ∧ py_isspace a = false)
    (list_ascii_of_string (NilEmpty.string_of_uint d)).
Proof. induction d; simpl; constructor; done. Qed.

Lemma map_to_blank_id (l : list ascii) :
  Forall (λ a, to_blank a = a ∧ py_isspace a = false) l → map to_blank l = l.
Proof. induction 1 as [|a l [Ha _] _ IH]; simpl; [done|]. by rewrite Ha, IH. Qed.

Lemma lstrip_no_space (l : list ascii) :
  Forall (λ a, to_blank a = a ∧ py_isspace a = false) l → lstrip l = l.
Proof. destruct 1 as [|a l [_ Ha] _]; simpl; [done|]. by rewrite Ha. Qed.

Lemma scan_digits_decimal (d : Decimal.uint) :
  ∀ (a k : nat) (b : bool),
  scan_digits (Z.of_nat a) k b (list_ascii_of_string (NilEmpty.string_of_uint d))
  = Some (Z.of_nat (Nat.of_uint_acc d a),
          k + String.length (NilEmpty.string_of_uint d),
          match d with Decimal.Nil => b | _ => false end,
          []).
Proof.
  induction d; intros a k b;
    [simpl; by rewrite Nat.add_0_r | ..];
    cbn [NilEmpty.string_of_uint list_ascii_of_string scan_digits Nat.of_uint_acc
         String.length];
    rewrite Nat.tail_mul_spec;
    match goal with
    | |- context [digit_of ?c] =>
        let v := eval vm_compute in (digit_of c) in
        change (digit_of c) with v; cbv iota beta
    end;
    match goal with
    | |- scan_digits ?z _ false _ = Some (Z.of_nat (Nat.of_uint_acc _ ?m), _, _, _) =>
        replace z with (Z.of_nat m) by lia
    end;
    rewrite IHd;
    replace (match d with Decimal.Nil => false | _ => false end) with false
      by (by destruct d);
    by rewrite Nat.add_succ_r.
Qed.

Lemma to_uint_not_nil (n : nat) : Nat.to_uint n ≠ Decimal.Nil.
Proof.
  intros E. pose proof (DecimalNat.Unsigned.of_to n) as H.
  rewrite E in H. simpl in H. subst n. discriminate E.
Qed.

Lemma first_digit (d : Decimal.uint) :
  d ≠ Decimal.Nil →
  ∃ a l, list_ascii_of_string (NilEmpty.string_of_uint d) = a :: l
         ∧ Ascii.eqb a "-" = false ∧ Ascii.eqb a "+" = false
         ∧ Ascii.eqb a "_" = false.
Proof.
  destruct d; [done|..]; intros _; simpl; eexists _, _; done.
Qed.

Lemma length_chars (s : string) :
  length (list_ascii_of_string s) = String.length s.
Proof. induction s; simpl; [done|]. by rewrite IHs. Qed.

Lemma parse_int_decimal (d : Decimal.uint) :
  d ≠ Decimal.Nil →
  (String.length (NilEmpty.string_of_uint d) ≤ MAX_STR_DIGITS)%nat →
  parse_int (NilEmpty.string_of_uint d) = Parsed (Z.of_nat (Nat.of_uint d)).
Proof.
  intros Hd Hlen. unfold parse_int.
  rewrite map_to_blank_id, lstrip_no_space by apply decimal_plain.
  destruct (first_digit d Hd) as (a & l & E & H1 & H2 & H3).
  pose proof (scan_digits_decimal d 0 0 false) as Hv.
  rewrite E in *. rewrite H1, H2. unfold parse_unsigned. rewrite H3.
  change (Z.of_nat 0) with 0%Z in Hv. rewrite Hv.
  assert (Hlen' : String.length (NilEmpty.string_of_uint d) ≠ 0).
  { rewrite <- (length_chars (NilEmpty.string_of_uint d)), E.
    simpl. lia. }
  replace (match d with Decimal.Nil => false | _ => false end) with false
    by (by destruct d).
  cbn [Nat.add].
  rewrite (proj2 (Nat.ltb_ge _ _)) by lia.
  rewrite (proj2 (Nat.eqb_neq _ _)) by lia.
  reflexivity.
Qed.

Lemma int_literal_show_nat (n : nat) :
  (String.length (show_nat n) ≤ MAX_STR_DIGITS)%nat →
  int_literal (show_nat n) = Some (Z.of_nat n).
Proof.
  unfold show_nat, NilZero.string_of_uint, int_literal.
  pose proof (to_uint_not_nil n) as Hn. intros Hlen.
  rewrite <- (DecimalNat.Unsigned.of_to n) at 2.
  destruct (Nat.to_uint n) eqn:E; [done|..]; by rewrite parse_int_decimal.
Qed.

(** X2. A reset header that holds a number written in at most 4300 decimal
    digits, as the API sends it, is read back as that number: with the clock
    at a time that is not negative and a wait that [time.sleep] takes, the
    call does not raise and sleeps [max 0 (n - floor now)] seconds. *)
Theorem wait_for_rate_limit_decimal_reset (h : gmap string string) (n : nat)
    (t1 t2 : Q) (limit : positive) :
  h !! "X-RateLimit-Reset" = Some (show_nat n) →
  (String.length (show_nat n) ≤ 4300)%nat → (0 <= t2)%Q →
  sleep_accepts limit (Z.of_nat n - Qfloor t2) →
  wait_for_rate_limit h t1 t2 limit = inr (Z.max 0 (Z.of_nat n - Qfloor t2)).
Proof.
  intros Hh Hlen Ht Hs. unfold wait_for_rate_limit, int_of_str.
  pose proof (int_literal_show_nat n Hlen) as Hi. unfold int_literal in Hi.
  rewrite Hh. destruct (parse_int (show_nat n)) as [z| |d]; try discriminate.
  injection Hi as ->. rewrite (int_of_float_floor t2 Ht).
  apply time_sleep_accepts; [lia|]. by apply sleep_accepts_max.
Qed.

Lemma wait_for_rate_limit_until_reset_witness :
  ({[ "X-RateLimit-Reset" := "1700000003" ]} : gmap string string)
    !! "X-RateLimit-Reset" = Some "1700000003"
  ∧ int_literal "1700000003" = Some 1700000003%Z
  ∧ (0 <= noon)%Q
  ∧ sleep_accepts any_sleep (1700000003 - Qfloor noon)
  ∧ ∃ seconds,
      wait_for_rate_limit {[ "X-RateLimit-Reset" := "1700000003" ]} noon noon any_sleep
      = inr seconds
      ∧ seconds = Z.max 0 (1700000003 - Qfloor noon)
      ∧ (inject_Z 1700000003 <= noon + inject_Z seconds)%Q
      ∧ ((0 < seconds)%Z → (noon + inject_Z seconds < inject_Z 1700000003 + 1)%Q)
      ∧ ((inject_Z 1700000003 <= noon)%Q → seconds = 0%Z).
Proof.
  assert (H1 : ({[ "X-RateLimit-Reset" := "1700000003" ]} : gmap string string)
                 !! "X-RateLimit-Reset" = Some "1700000003") by reflexivity.
  assert (H2 : int_literal "1700000003" = Some 1700000003%Z)
    by (vm_compute; reflexivity).
  assert (H3 : (0 <= noon)%Q) by (vm_compute; discriminate).
  assert (H4 : sleep_accepts any_sleep (1700000003 - Qfloor noon))
    by (split; vm_compute; discriminate).
  split; [exact H1|]. split; [exact H2|]. split; [exact H3|]. split; [exact H4|].
  exact (wait_for_rate_limit_until_reset _ _ _ noon noon any_sleep H1 H2 H3 H4).
Defined.

Lemma wait_for_rate_limit_decimal_reset_witness :
  ({[ "X-RateLimit-Reset" := show_nat 7 ]} : gmap string string)
    !! "X-RateLimit-Reset" = Some (show_nat 7)
  ∧ (String.length (show_nat 7) ≤ 4300)%nat
  ∧ (0 <= 3 # 2)%Q
  ∧ sleep_accepts any_sleep (Z.of_nat 7 - Qfloor (3 # 2))
  ∧ wait_for_rate_limit {[ "X-RateLimit-Reset" := show_nat 7 ]} 0 (3 # 2) any_sleep
    = inr (Z.max 0 (Z.of_nat 7 - Qfloor (3 # 2))).
Proof.
  assert (H1 : ({[ "X-RateLimit-Reset" := show_nat 7 ]} : gmap string string)
                 !! "X-RateLimit-Reset" = Some (show_nat 7)) by reflexivity.
  assert (H2 : (String.length (show_nat 7) ≤ 4300)%nat) by (vm_compute; lia).
  assert (H3 : (0 <= 3 # 2)%Q) by (vm_compute; discriminate).
  assert (H4 : sleep_accepts any_sleep (Z.of_nat 7 - Qfloor (3 # 2)))
    by (split; vm_compute; discriminate).
  split; [exact H1|]. split; [exact H2|]. split; [exact H3|]. split; [exact H4|].
  exact (wait_for_rate_limit_decimal_reset _ 7 0 (3 # 2) any_sleep H1 H2 H3 H4).
Defined.

(** ** [fetch_commit_history], against any server *)

Lemma requests_of_app (t1 t2 : list Event) :
  requests_of (t1 ++ t2) = requests_of t1 ++ requests_of t2.
Proof.
  induction t1 as [|[r|s] t1 IH]; simpl; [done| |done]. by rewrite IH.
Qed.

Lemma fetch_loop_rows (fuel : nat) :
  ∀ (env : Env) (owner repo : string) (i c page : nat) (hist rows : list Row)
    (tr : list Event),
  fetch_loop fuel env owner repo i c page hist = (Returned rows, tr) →
  rows = hist ++ flat_map (rows_of owner repo) (answers env i (requests_of tr)).
Proof.
  induction fuel as [|fuel IH]; intros env owner repo i c page hist rows tr H;
    [discriminate|].
  cbn [fetch_loop] in H.
  remember (mk_request env owner repo page) as request eqn:Hq.
  remember (server env i request) as response eqn:Hr.
  assert (Hone : ∀ tr', flat_map (rows_of owner repo)
                          (answers env i (requests_of (EGet request :: tr')))
                        = rows_of owner repo response
                          ++ flat_map (rows_of owner repo)
                               (answers env (S i) (requests_of tr'))).
  { intros tr'. cbn [requests_of answers flat_map]. by rewrite <- Hr. }
  destruct (Nat.eqb (status_code response) 403) eqn:E403.
  { destruct (wait_for_rate_limit _ _ _ _) as [e|seconds]; [discriminate|].
    destruct (fetch_loop fuel env owner repo (S i) (S (S c)) page hist)
      as [o tr'] eqn:Hrec.
    unfold emit in H. cbn [fst snd app] in H. injection H as -> <-.
    rewrite Hone. cbn [requests_of].
    unfold rows_of at 1. apply Nat.eqb_eq in E403. rewrite E403.
    cbn [Nat.eqb app]. exact (IH _ _ _ _ _ _ _ _ _ Hrec). }
  destruct (Nat.eqb (status_code response) 200) eqn:E200; [|discriminate].
  cbn [negb] in H.
  destruct (json response) as [e|data] eqn:Ej; [discriminate|].
  destruct (bool_decide _).
  - destruct (fetch_loop fuel env owner repo (S i) c (S page) _)
      as [o tr'] eqn:Hrec.
    unfold emit in H. cbn [fst snd app] in H. injection H as -> <-.
    rewrite Hone. rewrite (IH _ _ _ _ _ _ _ _ _ Hrec).
    unfold rows_of at 2. rewrite E200, Ej.
    by rewrite app_assoc.
  - unfold emit in H. cbn [fst snd app] in H. injection H as <- <-.
    rewrite Hone. cbn [requests_of answers flat_map].
    unfold rows_of. rewrite E200, Ej. by rewrite app_nil_r.
Qed.

(** X3. Whatever the server does, when the call returns, what it returns is
    the rows of the answers it received, in the order of the requests: every
    item of every 200 answer once, nothing for a 403 answer, nothing else. *)
Theorem fetch_commit_history_rows_of_answers (fuel : nat) (env : Env)
    (owner repo : string) (rows : list Row) (tr : list Event) :
  fetch_commit_history fuel env owner repo = (Returned rows, tr) →
  rows = flat_map (rows_of owner repo) (answers env 0 (requests_of tr)).
Proof. intros H. by apply fetch_loop_rows in H. Qed.

(** X4. Every row the call returns carries the repository it was asked for,
    as [owner/repo], whatever the server sent. *)
Theorem fetch_commit_history_repo_name (fuel : nat) (env : Env)
    (owner repo : string) (rows : list Row) (tr : list Event) :
  fetch_commit_history fuel env owner repo = (Returned rows, tr) →
  ∀ r, r ∈ rows → row_repo_name r = (owner ++ "/" ++ repo)%string.
Proof.
  intros H r Hr. apply fetch_loop_rows in H. subst rows. simpl in Hr.
  apply list_elem_of_In, in_flat_map in Hr as (resp & _ & Hr).
  unfold rows_of in Hr. destruct (Nat.eqb _ 200); [|by destruct Hr].
  destruct (json resp) as [e|data]; [by destruct Hr|].
  apply in_map_iff in Hr as (item & <- & _). reflexivity.
Qed.

Lemma fetch_commit_history_rows_of_answers_witness :
  fetch_commit_history 10 (throttled_twice two_pages) "scroll-tech" "scroll"
  = (Returned (map (to_row "scroll-tech" "scroll") (concat two_pages)),
     (fetch_commit_history 10 (throttled_twice two_pages) "scroll-tech" "scroll").2)
  ∧ map (to_row "scroll-tech" "scroll") (concat two_pages)
    = flat_map (rows_of "scroll-tech" "scroll")
        (answers (throttled_twice two_pages) 0
           (requests_of
              (fetch_commit_history 10 (throttled_twice two_pages)
                 "scroll-tech" "scroll").2)).
Proof.
  assert (H : fetch_commit_history 10 (throttled_twice two_pages) "scroll-tech" "scroll"
              = (Returned (map (to_row "scroll-tech" "scroll") (concat two_pages)),
                 (fetch_commit_history 10 (throttled_twice two_pages)
                    "scroll-tech" "scroll").2)).
  { vm_compute. reflexivity. }
  split; [exact H|].
  exact (fetch_commit_history_rows_of_answers 10 (throttled_twice two_pages)
           "scroll-tech" "scroll" _ _ H).
Defined.

Lemma fetch_commit_history_repo_name_witness :
  fetch_commit_history 10 (throttled_twice two_pages) "scroll-tech" "scroll"
  = (Returned (map (to_row "scroll-tech" "scroll") (concat two_pages)),
     (fetch_commit_history 10 (throttled_twice two_pages) "scroll-tech" "scroll").2)
  ∧ ∀ r, r ∈ map (to_row "scroll-tech" "scroll") (concat two_pages) →
         row_repo_name r = "scroll-tech/scroll".
Proof.
  assert (H : fetch_commit_history 10 (throttled_twice two_pages) "scroll-tech" "scroll"
              = (Returned (map (to_row "scroll-tech" "scroll") (concat two_pages)),
                 (fetch_commit_history 10 (throttled_twice two_pages)
                    "scroll-tech" "scroll").2)).
  { vm_compute. reflexivity. }
  split; [exact H|].
  exact (fetch_commit_history_repo_name 10 (throttled_twice two_pages)
           "scroll-tech" "scroll" _ _ H).
Defined.

Lemma paced_emit_next (mk : nat → Request) (p : nat) (tr : list Event) :
  paced mk (S p) tr → paced mk p ([EGet (mk p)] ++ tr).
Proof. apply paced_next. Qed.

Lemma fetch_loop_paced (fuel : nat) :
  ∀ (env : Env) (owner repo : string) (i c page : nat) (hist : list Row),
  paced (mk_request env owner repo) page
    (fetch_loop fuel env owner repo i c page hist).2.
Proof.
  induction fuel as [|fuel IH]; intros env owner repo i c page hist.
  - apply paced_end.
  - cbn [fetch_loop].
    destruct (Nat.eqb (status_code _) 403).
    + destruct (wait_for_rate_limit _ _ _ _) as [e|seconds] eqn:Hw.
      * apply paced_next, paced_end.
      * unfold emit. cbn [fst snd app]. apply paced_retry.
        -- by apply wait_nonneg in Hw.
        -- apply IH.
    + destruct (negb _).
      * apply paced_next, paced_end.
      * destruct (json _) as [e|data]; [apply paced_next, paced_end|].
        destruct (bool_decide _).
        -- unfold emit. cbn [fst snd app]. apply paced_next, IH.
        -- apply paced_next, paced_end.
Qed.

(** X5. Whatever the server does and however long the loop runs, its
    requests differ only in the page number; the page numbers start at 1 and
    go up one at a time; and a page is asked for again only after the wait
    the limiter computed, which is never negative, and one more second. *)
Theorem fetch_commit_history_paced (fuel : nat) (env : Env) (owner repo : string) :
  paced (mk_request env owner repo) 1
    (fetch_commit_history fuel env owner repo).2.
Proof. apply fetch_loop_paced. Qed.

Lemma paced_pages (mk : nat → Request) (p : nat) (tr : list Event) :
  paced mk p tr →
  ∀ k q, requests_of tr !! k = Some q →
         ∃ p', q = mk p' ∧ (p ≤ p')%nat ∧ (p' ≤ p + k)%nat.
Proof.
  induction 1 as [p|p tr _ IH|p w tr Hw _ IH]; intros k q Hk.
  - by destruct k.
  - destruct k as [|k]; simpl in Hk.
    + injection Hk as <-. exists p. split; [done|lia].
    + destruct (IH k q Hk) as (p' & -> & Hp). exists p'. split; [done|lia].
  - destruct k as [|k]; simpl in Hk.
    + injection Hk as <-. exists p. split; [done|lia].
    + destruct (IH k q Hk) as (p' & -> & Hp). exists p'. split; [done|lia].
Qed.

Lemma paced_steps (mk : nat → Request) (p : nat) (tr : list Event) :
  paced mk p tr →
  ∀ k q q', requests_of tr !! k = Some q → requests_of tr !! S k = Some q' →
            ∃ p1 p2, q = mk p1 ∧ q' = mk p2 ∧ (p ≤ p1)%nat ∧ (p2 = p1 ∨ p2 = S p1).
Proof.
  induction 1 as [p|p tr Htr IH|p w tr Hw Htr IH]; intros k q q' Hk Hk'.
  - by destruct k.
  - destruct k as [|k]; simpl in Hk, Hk'.
    + injection Hk as <-.
      destruct (paced_pages _ _ _ Htr 0 q' Hk') as (p2 & -> & Hlo & Hhi).
      exists p, p2. repeat split; [lia|]. right. lia.
    + destruct (IH k q q' Hk Hk') as (p1 & p2 & -> & -> & Hlo & Hs).
      exists p1, p2. repeat split; [lia|done].
  - destruct k as [|k]; simpl in Hk, Hk'.
    + injection Hk as <-.
      destruct (paced_pages _ _ _ Htr 0 q' Hk') as (p2 & -> & Hlo & Hhi).
      exists p, p2. repeat split; [lia|]. left. lia.
    + destruct (IH k q q' Hk Hk') as (p1 & p2 & -> & -> & Hlo & Hs).
      exists p1, p2. repeat split; [lia|done].
Qed.

(** X6. In the sequence of requests of a call, however short, the first
    is for page 1, no request is for page 0 or for a page beyond the number
    of requests made so far, and each next request is for the same page or
    for the page after it: no page is skipped, none is asked for again once
    the loop has moved on. *)
Theorem fetch_commit_history_page_steps (fuel : nat) (env : Env)
    (owner repo : string) :
  (∀ k q,
     requests_of (fetch_commit_history fuel env owner repo).2 !! k = Some q →
     (1 ≤ req_page q)%nat ∧ (req_page q ≤ k + 1)%nat ∧ (k = 0 → req_page q = 1))
  ∧ (∀ k q q',
       requests_of (fetch_commit_history fuel env owner repo).2 !! k = Some q →
       requests_of (fetch_commit_history fuel env owner repo).2 !! S k = Some q' →
       req_page q' = req_page q ∨ req_page q' = S (req_page q)).
Proof.
  pose proof (fetch_loop_paced fuel env owner repo 0 0 1 []) as Hp.
  fold (fetch_commit_history fuel env owner repo) in Hp. split.
  - intros k q Hk.
    destruct (paced_pages _ _ _ Hp k q Hk) as (p' & -> & Hlo & Hhi).
    cbn [mk_request req_page]. split; [lia|]. split; [lia|]. lia.
  - intros k q q' Hk Hk'.
    destruct (paced_steps _ _ _ Hp k q q' Hk Hk') as (p1 & p2 & -> & -> & _ & Hs).
    cbn [mk_request req_page]. done.
Qed.

Lemma fetch_loop_keeps_retrying (env : Env) (owner repo : string) :
  (∀ i c q, status_code (server env i q) = 403
            ∧ reset_readable (headers (server env i q))
            ∧ wait_in_reach (headers (server env i q))
                (clock env c) (clock env (S c)) (sleep_limit env c)) →
  ∀ fuel i c page hist,
    (fetch_loop fuel env owner repo i c page hist).1 = Running
    ∧ requests_of (fetch_loop fuel env owner repo i c page hist).2
      = replicate fuel (mk_request env owner repo page).
Proof.
  intros H fuel. induction fuel as [|fuel IH]; intros i c page hist; [done|].
  destruct (H i c (mk_request env owner repo page)) as (Hs & Hr & Hi).
  destruct (wait_readable _ (clock env c) (clock env (S c)) (sleep_limit env c) Hr Hi)
    as [seconds Hw].
  rewrite (fetch_loop_403 _ _ _ _ _ _ _ _ seconds Hs Hw).
  destruct (IH (S i) (S (S c)) page hist) as [IH1 IH2].
  unfold emit. cbn [fst snd app requests_of replicate]. by rewrite IH2.
Qed.

(** X7. The loop puts no bound on its retries: against a server that
    answers 403 to everything, with a reset header [int] reads (or none) and
    a wait that [time.sleep] takes each time, however many requests the call
    is given room for, it has not returned or raised after them, and all of
    them were for page 1. *)
Theorem fetch_commit_history_keeps_retrying (env : Env) (owner repo : string)
    (fuel : nat) :
  (∀ i c q, status_code (server env i q) = 403
            ∧ reset_readable (headers (server env i q))
            ∧ wait_in_reach (headers (server env i q))
                (clock env c) (clock env (S c)) (sleep_limit env c)) →
  (fetch_commit_history fuel env owner repo).1 = Running
  ∧ requests_of (fetch_commit_history fuel env owner repo).2
    = replicate fuel (mk_request env owner repo 1).
Proof. intros H. by apply fetch_loop_keeps_retrying. Qed.

Lemma fetch_commit_history_keeps_retrying_witness :
  (∀ i c q, status_code (server (always_throttled "1700000003") i q) = 403
            ∧ reset_readable (headers (server (always_throttled "1700000003") i q))
            ∧ wait_in_reach (headers (server (always_throttled "1700000003") i q))
                (clock (always_throttled "1700000003") c)
                (clock (always_throttled "1700000003") (S c))
                (sleep_limit (always_throttled "1700000003") c))
  ∧ (fetch_commit_history 7 (always_throttled "1700000003") "scroll-tech" "scroll").1
    = Running
  ∧ requests_of (fetch_commit_history 7 (always_throttled "1700000003")
                   "scroll-tech" "scroll").2
    = replicate 7 (mk_request (always_throttled "1700000003") "scroll-tech" "scroll" 1).
Proof.
  assert (H : ∀ i c q, status_code (server (always_throttled "1700000003") i q) = 403
            ∧ reset_readable (headers (server (always_throttled "1700000003") i q))
            ∧ wait_in_reach (headers (server (always_throttled "1700000003") i q))
                (clock (always_throttled "1700000003") c)
                (clock (always_throttled "1700000003") (S c))
                (sleep_limit (always_throttled "1700000003") c)).
  { intros i c q. split; [reflexivity|]. split.
    - vm_compute. eexists. reflexivity.
    - unfold wait_in_reach. cbn [always_throttled always server plain_response headers].
      rewrite lookup_singleton_eq. intros reset Hr. vm_compute in Hr.
      injection Hr as <-. split; vm_compute; discriminate. }
  split; [exact H|].
  exact (fetch_commit_history_keeps_retrying (always_throttled "1700000003")
           "scroll-tech" "scroll" 7 H).
Defined.

Lemma plain_char_repr (a : ascii) :
  plain_char a = true → repr_char squote a = chr a ∧ Ascii.eqb a squote = false.
Proof.
  unfold plain_char, repr_char. intros H.
  apply andb_true_iff in H as [H Hb]. apply andb_true_iff in H as [H Hd].
  apply andb_true_iff in H as [H Hs]. apply andb_true_iff in H as [Hlo Hhi].
  apply negb_true_iff in Hb, Hd, Hs. rewrite Hs, Hb. cbn [orb].
  apply Nat.leb_le in Hlo. apply Nat.ltb_lt in Hhi.
  rewrite (proj2 (Nat.eqb_neq _ 9)) by lia.
  rewrite (proj2 (Nat.eqb_neq _ 10)) by lia.
  rewrite (proj2 (Nat.eqb_neq _ 13)) by lia.
  rewrite (proj2 (Nat.ltb_ge _ 32)) by lia.
  rewrite (proj2 (Nat.leb_gt 127 _)) by lia. done.
Qed.

Lemma plain_text_repr (s : string) :
  plain_text s = true →
  repr_body squote s = s ∧ has_char squote s = false.
Proof.
  induction s as [|a s IH]; cbn [plain_text repr_body has_char]; [done|].
  intros H. apply andb_true_iff in H as [Ha Hs].
  destruct (plain_char_repr a Ha) as [E1 E2]. destruct (IH Hs) as [E3 E4].
  by rewrite E1, E2, E3, E4.
Qed.

Lemma bytes_repr_plain (s : string) :
  plain_text s = true → bytes_repr s = ("b'" ++ s ++ "'")%string.
Proof.
  intros H. destruct (plain_text_repr s H) as [Hb Hq].
  unfold bytes_repr, quote_for. rewrite Hq. cbn [andb]. rewrite Hb. reflexivity.
Qed.

(** X8. When the body of an answer with a status other than 200 and 403 is
    made of printable characters without quotes and backslashes, the text of
    the exception is the fixed prefix followed by the body itself between
    [b'] and ['], so the body can be read off the exception as it was sent. *)
Theorem fetch_loop_error_plain_body (fuel : nat) (env : Env) (owner repo : string)
    (i c page : nat) (hist : list Row) :
  status_code (server env i (mk_request env owner repo page)) ≠ 200 →
  status_code (server env i (mk_request env owner repo page)) ≠ 403 →
  plain_text (content (server env i (mk_request env owner repo page))) = true →
  (fetch_loop (S fuel) env owner repo i c page hist).1
  = Raised (Exception ("Failed to fetch commit history: b'"
                       ++ content (server env i (mk_request env owner repo page))
                       ++ "'")).
Proof.
  intros H200 H403 Hp. cbn [fetch_loop].
  apply Nat.eqb_neq in H200, H403. rewrite H200, H403.
  unfold emit, fetch_error. cbn [fst negb]. by rewrite (bytes_repr_plain _ Hp).
Qed.

Lemma fetch_loop_error_plain_body_witness :
  (fetch_loop 1 (always (plain_response 500 ∅ "oops")) "a" "b" 3 0 2 [row_a]).1
  = Raised (Exception ("Failed to fetch commit history: b'"
                       ++ content (server (always (plain_response 500 ∅ "oops")) 3
                            (mk_request (always (plain_response 500 ∅ "oops")) "a" "b" 2))
                       ++ "'")).
Proof.
  apply (fetch_loop_error_plain_body 0 (always (plain_response 500 ∅ "oops"))
           "a" "b" 3 0 2 [row_a]).
  - simpl. lia.
  - simpl. lia.
  - vm_compute. reflexivity.
Defined.

(** ** [increment_table], beyond the merge of one batch *)

Lemma rows_to_insert_elem (target staging : list Row) (s : Row) :
  s ∈ rows_to_insert target staging ↔ s ∈ staging ∧ s ∉ target.
Proof.
  unfold rows_to_insert.
  rewrite list_elem_of_In, filter_In, not_exists_spec, <- list_elem_of_In.
  reflexivity.
Qed.

Lemma insert_not_exists_elem (target staging : list Row) (s : Row) :
  s ∈ insert_not_exists target staging ↔ s ∈ target ∨ s ∈ staging.
Proof.
  unfold insert_not_exists. rewrite elem_of_app, rows_to_insert_elem.
  destruct (decide (s ∈ target)); tauto.
Qed.

Lemma rows_to_insert_length (target staging : list Row) :
  (length (rows_to_insert target staging) ≤ length staging)%nat
  ∧ (length (rows_to_insert target staging) = length staging
     ↔ ∀ s, s ∈ staging → s ∉ target).
Proof.
  unfold rows_to_insert.
  induction staging as [|s staging [IHle IHeq]]; simpl.
  - split; [lia|]. split; [|done]. intros _ s Hs. by apply elem_of_nil in Hs.
  - destruct (not_exists target s) eqn:E; simpl.
    + apply not_exists_spec in E. split; [lia|]. split.
      * intros H x Hx. apply elem_of_cons in Hx as [->|Hx]; [done|].
        apply IHeq; [lia|done].
      * intros H. f_equal. apply IHeq. intros x Hx. apply H. by right.
    + apply not_true_iff_false in E. rewrite not_exists_spec in E.
      split; [lia|]. split; [lia|].
      intros H. destruct E. apply H. left.
Qed.

(** X9. The call only ever adds to the permanent table: whatever happens,
    the table afterwards is the table before followed by rows that all come
    from the batch and were not in the table before; no stored row is
    removed, changed or moved. *)
Theorem increment_table_insert_only (f : Faults) (df : list Row) (w : World) :
  ∃ added, table (increment_table f df w).2 = table w ++ added
           ∧ ∀ s, s ∈ added → s ∈ df ∧ s ∉ table w.
Proof.
  destruct (increment_table_table f df w) as [->| ->].
  - exists []. split; [by rewrite app_nil_r|]. intros s Hs. by apply elem_of_nil in Hs.
  - exists (rows_to_insert (table w) df). split; [done|].
    intros s. apply rows_to_insert_elem.
Qed.

(** X10. After a call that returned, the rows of the permanent table are
    those it had before together with those of the batch, and no others. *)
Theorem increment_table_rows (f : Faults) (df : list Row) (w w' : World) (r : Row) :
  increment_table f df w = (inr tt, w') →
  r ∈ table w' ↔ r ∈ table w ∨ r ∈ df.
Proof.
  intros H. apply increment_table_inr in H as [-> _].
  apply insert_not_exists_elem.
Qed.

Lemma increment_table_rows_witness :
  increment_table healthy [row_a; row_b] (world_with [row_b]) = (inr tt, merged_once)
  ∧ (row_a ∈ table merged_once ↔ row_a ∈ table (world_with [row_b]) ∨ row_a ∈ [row_a; row_b]).
Proof.
  assert (H : increment_table healthy [row_a; row_b] (world_with [row_b])
              = (inr tt, merged_once)) by (vm_compute; reflexivity).
  split; [exact H|].
  exact (increment_table_rows healthy [row_a; row_b] (world_with [row_b])
           merged_once row_a H).
Defined.

(** X11. After a call that returned, the number of rows the table gained is
    at most the number printed as inserted, and is that number exactly when
    no row of the batch was in the table before the call. *)
Theorem increment_table_count (f : Faults) (df : list Row) (w w' : World) :
  increment_table f df w = (inr tt, w') →
  last (stdout w') = Some (success_line (length df))
  ∧ (length (table w') ≤ length (table w) + length df)%nat
  ∧ (length (table w') = length (table w) + length df
     ↔ ∀ s, s ∈ df → s ∉ table w).
Proof.
  intros H. apply increment_table_inr in H as [-> ->].
  destruct (rows_to_insert_length (table w) df) as [Hle Heq].
  split; [apply last_snoc|].
  unfold insert_not_exists. rewrite length_app. split; [lia|].
  rewrite <- Heq. lia.
Qed.

Lemma increment_table_count_witness :
  increment_table healthy [row_a; row_b] (world_with [row_b]) = (inr tt, merged_once)
  ∧ last (stdout merged_once) = Some (success_line (length [row_a; row_b]))
  ∧ (length (table merged_once)
     ≤ length (table (world_with [row_b])) + length [row_a; row_b])%nat
  ∧ (length (table merged_once)
     = length (table (world_with [row_b])) + length [row_a; row_b]
     ↔ ∀ s, s ∈ [row_a; row_b] → s ∉ table (world_with [row_b])).
Proof.
  assert (H : increment_table healthy [row_a; row_b] (world_with [row_b])
              = (inr tt, merged_once)) by (vm_compute; reflexivity).
  split; [exact H|].
  exact (increment_table_count healthy [row_a; row_b] (world_with [row_b])
           merged_once H).
Defined.

Lemma rows_to_insert_app (target d1 d2 : list Row) :
  rows_to_insert target (d1 ++ d2)
  = rows_to_insert target d1 ++ rows_to_insert target d2.
Proof. unfold rows_to_insert. apply List.filter_app. Qed.

Lemma rows_to_insert_ext (t1 t2 staging : list Row) :
  (∀ s, s ∈ staging → (s ∈ t1 ↔ s ∈ t2)) →
  rows_to_insert t1 staging = rows_to_insert t2 staging.
Proof.
  intros H. unfold rows_to_insert. apply filter_ext_in. intros s Hs.
  apply list_elem_of_In in Hs. specialize (H s Hs).
  destruct (not_exists t1 s) eqn:E1, (not_exists t2 s) eqn:E2; try done.
  - apply not_exists_spec in E1. apply not_true_iff_false in E2.
    rewrite not_exists_spec in E2. tauto.
  - apply not_exists_spec in E2. apply not_true_iff_false in E1.
    rewrite not_exists_spec in E1. tauto.
Qed.

(** X12. Two calls in a row, with batches whose common rows (if any) were
    already stored, leave the table that one call with the two batches put
    together leaves. *)
Theorem increment_table_in_two_calls (f1 f2 f3 : Faults) (d1 d2 : list Row)
    (w w1 w2 w3 : World) :
  (∀ s, s ∈ d1 → s ∈ d2 → s ∈ table w) →
  increment_table f1 d1 w = (inr tt, w1) →
  increment_table f2 d2 w1 = (inr tt, w2) →
  increment_table f3 (d1 ++ d2) w = (inr tt, w3) →
  table w2 = table w3.
Proof.
  intros Hc H1 H2 H3.
  apply increment_table_inr in H1 as [E1 _].
  apply increment_table_inr in H2 as [-> _].
  apply increment_table_inr in H3 as [-> _].
  rewrite E1. unfold insert_not_exists at 1 3.
  rewrite rows_to_insert_app. unfold insert_not_exists at 1.
  rewrite <- app_assoc. do 2 f_equal.
  apply rows_to_insert_ext. intros s Hs.
  rewrite insert_not_exists_elem. specialize (Hc s). tauto.
Qed.

Lemma increment_table_in_two_calls_witness :
  table (increment_table healthy [row_b]
           (increment_table healthy [row_a] (world_with [])).2).2
  = table (increment_table healthy ([row_a] ++ [row_b]) (world_with [])).2.
Proof.
  apply (increment_table_in_two_calls healthy healthy healthy [row_a] [row_b]
           (world_with []) (increment_table healthy [row_a] (world_with [])).2).
  - intros s Ha Hb. apply list_elem_of_singleton in Ha, Hb. subst s. discriminate Hb.
  - vm_compute. reflexivity.
  - vm_compute. reflexivity.
  - vm_compute. reflexivity.
Defined.

(** X13. When the connection was opened and a later step raises (creating
    the temporary table, loading it, or the merge statement), the call ends
    without closing the cursor or the connection: the exception skips both
    [close] calls. *)
Theorem increment_table_leaves_connection_open (f : Faults) (df : list Row)
    (w : World) :
  connect_fault f = None → ¬ no_faults f →
  ∃ e w', increment_table f df w = (inl e, w')
          ∧ new_ops w w' !! 0 = Some OpConnect
          ∧ (OpCursorClose ∉ new_ops w w')
          ∧ OpConnClose ∉ new_ops w w'.
Proof.
  intros Hc Hf. unfold no_faults in Hf.
  destruct f as [c1 c2 c3 c4 n]; simpl in Hc, Hf. subst c1.
  destruct c2 as [e2|].
  { exists e2. eexists. run_increment_table. split; [reflexivity|].
    erewrite new_ops_log by (cbn; reflexivity).
    split; [done|]. split; intros H; apply list_elem_of_singleton in H; done. }
  destruct c3 as [e3|].
  { exists e3. eexists. run_increment_table. split; [reflexivity|].
    erewrite new_ops_log; [|cbn; rewrite <- app_assoc; reflexivity].
    split; [done|]. split; intros H; repeat (apply elem_of_cons in H as [H|H]; [done|]);
      by apply elem_of_nil in H. }
  destruct c4 as [e4|].
  { exists e4. eexists. run_increment_table. split; [reflexivity|].
    erewrite new_ops_log; [|cbn; rewrite <- !app_assoc; reflexivity].
    split; [done|]. split; intros H; repeat (apply elem_of_cons in H as [H|H]; [done|]);
      by apply elem_of_nil in H. }
  destruct Hf. auto.
Qed.

Lemma increment_table_leaves_connection_open_witness :
  connect_fault load_aborts = None ∧ ¬ no_faults load_aborts
  ∧ ∃ e w', increment_table load_aborts [row_a] (world_with [row_b]) = (inl e, w')
            ∧ new_ops (world_with [row_b]) w' !! 0 = Some OpConnect
            ∧ (OpCursorClose ∉ new_ops (world_with [row_b]) w')
            ∧ OpConnClose ∉ new_ops (world_with [row_b]) w'.
Proof.
  assert (H1 : connect_fault load_aborts = None) by reflexivity.
  assert (H2 : ¬ no_faults load_aborts).
  { intros (_ & _ & H & _). discriminate H. }
  split; [exact H1|]. split; [exact H2|].
  exact (increment_table_leaves_connection_open load_aborts [row_a]
           (world_with [row_b]) H1 H2).
Defined.

Lemma rows_to_insert_Permutation (target d1 d2 : list Row) :
  d1 ≡ₚ d2 → rows_to_insert target d1 ≡ₚ rows_to_insert target d2.
Proof.
  unfold rows_to_insert. induction 1 as [|x l l' _ IH|x y l|l l' l'' _ IH1 _ IH2]; simpl.
  - done.
  - destruct (not_exists target x); by rewrite IH.
  - destruct (not_exists target x), (not_exists target y); try done. apply perm_swap.
  - by rewrite IH1.
Qed.

(** X14. The order of the rows in the batch matters only for the order of
    the rows added: two batches with the same rows in a different order leave
    tables with the same rows, each as many times. *)
Theorem increment_table_batch_order (f : Faults) (d1 d2 : list Row) (w : World) :
  d1 ≡ₚ d2 →
  table (increment_table f d1 w).2 ≡ₚ table (increment_table f d2 w).2.
Proof.
  intros Hp. destruct (no_faults_dec f) as [Hf|Hf].
  - destruct (increment_table_returns f d1 w Hf) as (w1 & E1 & T1 & _).
    destruct (increment_table_returns f d2 w Hf) as (w2 & E2 & T2 & _).
    rewrite E1, E2. cbn [snd]. rewrite T1, T2.
    unfold insert_not_exists. by rewrite (rows_to_insert_Permutation _ _ _ Hp).
  - destruct (increment_table_raises f d1 w Hf) as (e1 & w1 & E1 & T1 & _).
    destruct (increment_table_raises f d2 w Hf) as (e2 & w2 & E2 & T2 & _).
    rewrite E1, E2. cbn [snd]. by rewrite T1, T2.
Qed.

Lemma increment_table_batch_order_witness :
  [row_a; row_b] ≡ₚ [row_b; row_a]
  ∧ table (increment_table healthy [row_a; row_b] (world_with [])).2
    ≡ₚ table (increment_table healthy [row_b; row_a] (world_with [])).2.
Proof.
  assert (H : [row_a; row_b] ≡ₚ [row_b; row_a]) by apply perm_swap.
  split; [exact H|].
  exact (increment_table_batch_order healthy _ _ (world_with []) H).
Defined.

(** ** The collector and the script as a whole *)

Lemma main_run (task : Task) (completed : list Repo) (f : Faults) (w : World) :
  main task completed f w
  = match pd_concat (dfs (fetch_all_commit_histories task completed (set_dfs [] w))) with
    | inl e => (inl e, fetch_all_commit_histories task completed (set_dfs [] w))
    | inr [] =>
        (inl (AttributeError "Can only use .str accessor with string values!"),
         fetch_all_commit_histories task completed (set_dfs [] w))
    | inr df =>
        increment_table f df (fetch_all_commit_histories task completed (set_dfs [] w))
    end.
Proof.
  unfold main, mbind, M_bind, effect, get_world, raise.
  destruct (pd_concat _) as [e|[|r df]]; reflexivity.
Qed.

Lemma collected_fresh (task : Task) (completed : list Repo) (w : World) :
  dfs (fetch_all_commit_histories task completed (set_dfs [] w))
  = omap (task_data task) completed.
Proof. by rewrite collected_dfs. Qed.

Lemma collected_table (task : Task) (completed : list Repo) (w : World) :
  table (fetch_all_commit_histories task completed (set_dfs [] w)) = table w.
Proof. by destruct (collected_storage task completed (set_dfs [] w)) as (-> & _). Qed.

Lemma collected_lines (task : Task) (completed : list Repo) (w : World) :
  stdout (fetch_all_commit_histories task completed (set_dfs [] w))
  = stdout w ++ map (report_line task) completed.
Proof. by rewrite collected_stdout. Qed.

Lemma fetch_loop_more_fuel (fuel : nat) :
  ∀ (fuel' : nat) (env : Env) (owner repo : string) (i c page : nat)
    (hist : list Row),
  (fuel ≤ fuel')%nat →
  (fetch_loop fuel env owner repo i c page hist).1 ≠ Running →
  fetch_loop fuel' env owner repo i c page hist
  = fetch_loop fuel env owner repo i c page hist.
Proof.
  induction fuel as [|fuel IH]; intros fuel' env owner repo i c page hist Hle Hr;
    [by destruct Hr|].
  destruct fuel' as [|fuel']; [lia|].
  cbn [fetch_loop] in *.
  destruct (Nat.eqb (status_code _) 403).
  - destruct (wait_for_rate_limit _ _ _ _) as [e|seconds]; [done|].
    rewrite (IH fuel'); [done|lia|]. by destruct (fetch_loop fuel _ _ _ _ _ _ _).
  - destruct (negb _); [done|]. destruct (json _) as [e|data]; [done|].
    destruct (bool_decide _); [|done].
    rewrite (IH fuel'); [done|lia|]. by destruct (fetch_loop fuel _ _ _ _ _ _ _).
Qed.

Lemma ended_agree (fuel1 fuel2 : nat) (env : Env) (owner repo : string)
    (r1 r2 : exn + list Row) :
  ended (fetch_commit_history fuel1 env owner repo) = Some r1 →
  ended (fetch_commit_history fuel2 env owner repo) = Some r2 →
  r1 = r2.
Proof.
  unfold fetch_commit_history. intros H1 H2.
  assert (Hn : ∀ fuel r, ended (fetch_loop fuel env owner repo 0 0 1 []) = Some r →
                         (fetch_loop fuel env owner repo 0 0 1 []).1 ≠ Running).
  { intros fuel r H E. unfold ended in H. by rewrite E in H. }
  destruct (Nat.le_ge_cases fuel1 fuel2) as [Hle|Hle].
  - rewrite (fetch_loop_more_fuel fuel1 fuel2) in H2 by eauto. congruence.
  - rewrite (fetch_loop_more_fuel fuel2 fuel1) in H1 by eauto. congruence.
Qed.

(** X15. The script end to end.  Suppose the task of every repository is
    its fetch and every fetch comes to an end, the fetch of one repository
    returns at least one row, and the warehouse raises nothing.  Then the
    script returns; the table is the table before followed by the fetched
    rows that were not in it, taken repository by repository in the order of
    completion; every row that fetch returned is in the table; and the output
    is one line per repository followed by the line with the count. *)
Theorem main_merges_fetched_rows (api : string → string → Env) (task : Task)
    (completed : list Repo) (f : Faults) (w : World) (R : Repo) (fuel : nat)
    (rows : list Row) (tr : list Event) :
  no_faults f →
  (∀ repo, repo ∈ completed → fetch_ends api task repo) →
  R ∈ completed →
  fetch_commit_history fuel (api (OWNER R) (NAME R)) (OWNER R) (NAME R)
  = (Returned rows, tr) →
  rows ≠ [] →
  ∃ w', main task completed f w = (inr tt, w')
        ∧ table w'
          = insert_not_exists (table w) (concat (omap (task_data task) completed))
        ∧ (∀ r, r ∈ rows → r ∈ table w')
        ∧ stdout w'
          = stdout w ++ map (report_line task) completed
            ++ [success_line (length (concat (omap (task_data task) completed)))].
Proof.
  intros Hf Hends HR Hfetch Hrows. rewrite main_run.
  assert (HT : task (OWNER R) (NAME R) = inr rows).
  { destruct (Hends R HR) as [fuel0 H0]. symmetry.
    apply (ended_agree fuel fuel0 (api (OWNER R) (NAME R)) (OWNER R) (NAME R));
      [|done].
    unfold ended. by rewrite Hfetch. }
  assert (Hd : rows ∈ omap (task_data task) completed).
  { apply list_elem_of_omap. exists R. split; [done|].
    unfold task_data. by rewrite HT. }
  rewrite collected_fresh. unfold pd_concat.
  destruct (omap (task_data task) completed) as [|d0 ds] eqn:E;
    [by apply elem_of_nil in Hd|].
  assert (Hin : ∀ r, r ∈ rows → r ∈ concat (d0 :: ds)).
  { intros r Hr. apply list_elem_of_In, in_concat. exists rows.
    split; by apply list_elem_of_In. }
  destruct (concat (d0 :: ds)) as [|r0 df] eqn:Ec.
  { destruct rows as [|r rows]; [done|].
    specialize (Hin r ltac:(left)). by apply elem_of_nil in Hin. }
  destruct (increment_table_returns f (r0 :: df)
              (fetch_all_commit_histories task completed (set_dfs [] w)) Hf)
    as (w' & -> & Ht & Ho & _).
  exists w'. rewrite collected_table in Ht. rewrite collected_lines in Ho.
  split; [done|]. split; [done|]. split; [|by rewrite Ho, <- app_assoc].
  intros r Hr. rewrite Ht. apply insert_not_exists_elem. right. by apply Hin.
Qed.

Lemma main_merges_fetched_rows_witness :
  no_faults healthy
  ∧ (∀ repo, repo ∈ [repo_bad; repo_ok] → fetch_ends sample_api sample_task repo)
  ∧ repo_ok ∈ [repo_bad; repo_ok]
  ∧ fetch_commit_history 10 (sample_api (OWNER repo_ok) (NAME repo_ok))
      (OWNER repo_ok) (NAME repo_ok)
    = (Returned [row_a; row_b],
       (fetch_commit_history 10 (sample_api (OWNER repo_ok) (NAME repo_ok))
          (OWNER repo_ok) (NAME repo_ok)).2)
  ∧ [row_a; row_b] ≠ []
  ∧ ∃ w', main sample_task [repo_bad; repo_ok] healthy (world_with [row_b])
          = (inr tt, w')
          ∧ table w'
            = insert_not_exists (table (world_with [row_b]))
                (concat (omap (task_data sample_task) [repo_bad; repo_ok]))
          ∧ (∀ r, r ∈ [row_a; row_b] → r ∈ table w')
          ∧ stdout w'
            = stdout (world_with [row_b])
              ++ map (report_line sample_task) [repo_bad; repo_ok]
              ++ [success_line
                    (length (concat (omap (task_data sample_task) [repo_bad; repo_ok])))].
Proof.
  assert (H1 : no_faults healthy) by (repeat split).
  assert (H2 : ∀ repo, repo ∈ [repo_bad; repo_ok] →
                       fetch_ends sample_api sample_task repo).
  { intros repo Hr. exists 10.
    apply elem_of_cons in Hr as [->|Hr]; [vm_compute; reflexivity|].
    apply list_elem_of_singleton in Hr as ->. vm_compute. reflexivity. }
  assert (H3 : repo_ok ∈ [repo_bad; repo_ok])
    by apply list_elem_of_further, list_elem_of_here.
  assert (H4 : fetch_commit_history 10 (sample_api (OWNER repo_ok) (NAME repo_ok))
      (OWNER repo_ok) (NAME repo_ok)
    = (Returned [row_a; row_b],
       (fetch_commit_history 10 (sample_api (OWNER repo_ok) (NAME repo_ok))
          (OWNER repo_ok) (NAME repo_ok)).2)) by (vm_compute; reflexivity).
  assert (H5 : [row_a; row_b] ≠ []) by discriminate.
  split; [exact H1|]. split; [exact H2|]. split; [exact H3|].
  split; [exact H4|]. split; [exact H5|].
  exact (main_merges_fetched_rows sample_api sample_task [repo_bad; repo_ok] healthy
           (world_with [row_b]) repo_ok 10 [row_a; row_b] _ H1 H2 H3 H4 H5).
Defined.

(** X16. Whenever the script ends with an exception, the permanent table is
    as it was, and the line of every repository (completed or failed) had
    been printed before. *)
Theorem main_raise_leaves_table (task : Task) (completed : list Repo)
    (f : Faults) (w w' : World) (e : exn) :
  main task completed f w = (inl e, w') →
  table w' = table w
  ∧ stdout w' = stdout w ++ map (report_line task) completed.
Proof.
  rewrite main_run. destruct (pd_concat _) as [e0|[|r df]].
  - intros [= <- <-]. by rewrite collected_table, collected_lines.
  - intros [= <- <-]. by rewrite collected_table, collected_lines.
  - intros H.
    set (w0 := fetch_all_commit_histories task completed (set_dfs [] w)) in *.
    destruct (no_faults_dec f) as [Hf|Hf].
    + destruct (increment_table_returns f (r :: df) w0 Hf) as (w1 & E & _).
      rewrite E in H. discriminate.
    + destruct (increment_table_raises f (r :: df) w0 Hf)
        as (e1 & w1 & E & Ht & Ho & _).
      rewrite E in H. injection H as <- <-.
      rewrite Ht, Ho. unfold w0. by rewrite collected_table, collected_lines.
Qed.

Lemma main_raise_leaves_table_witness :
  main sample_task [repo_bad; repo_ok] load_aborts (world_with [row_b])
  = (inl (ProgrammingError "COPY INTO failed"),
     (main sample_task [repo_bad; repo_ok] load_aborts (world_with [row_b])).2)
  ∧ table (main sample_task [repo_bad; repo_ok] load_aborts (world_with [row_b])).2
    = table (world_with [row_b])
  ∧ stdout (main sample_task [repo_bad; repo_ok] load_aborts (world_with [row_b])).2
    = stdout (world_with [row_b]) ++ map (report_line sample_task) [repo_bad; repo_ok].
Proof.
  assert (H : main sample_task [repo_bad; repo_ok] load_aborts (world_with [row_b])
    = (inl (ProgrammingError "COPY INTO failed"),
       (main sample_task [repo_bad; repo_ok] load_aborts (world_with [row_b])).2)).
  { vm_compute. reflexivity. }
  split; [exact H|].
  exact (main_raise_leaves_table sample_task [repo_bad; repo_ok] load_aborts
           (world_with [row_b]) _ _ H).
Defined.

Lemma concat_Permutation {A} (l1 l2 : list (list A)) :
  l1 ≡ₚ l2 → concat l1 ≡ₚ concat l2.
Proof.
  induction 1 as [|x l l' _ IH|x y l|l l' l'' _ IH1 _ IH2]; simpl.
  - done.
  - by rewrite IH.
  - rewrite !app_assoc. by rewrite (Permutation_app_comm y x).
  - by rewrite IH1.
Qed.

Lemma increment_table_table_eq (f : Faults) (df : list Row) (w : World) :
  table (increment_table f df w).2
  = if no_faults_dec f then insert_not_exists (table w) df else table w.
Proof.
  destruct (no_faults_dec f) as [Hf|Hf].
  - destruct (increment_table_returns f df w Hf) as (w' & E & T & _).
    by rewrite E.
  - destruct (increment_table_raises f df w Hf) as (e & w' & E & T & _).
    by rewrite E.
Qed.

Lemma main_table (task : Task) (completed : list Repo) (f : Faults) (w : World) :
  table (main task completed f w).2
  = match omap (task_data task) completed with
    | [] => table w
    | frames =>
        if no_faults_dec f then insert_not_exists (table w) (concat frames)
        else table w
    end.
Proof.
  rewrite main_run, collected_fresh. unfold pd_concat.
  destruct (omap (task_data task) completed) as [|d ds].
  - apply collected_table.
  - destruct (concat (d :: ds)) as [|r df] eqn:E.
    + cbn [snd]. rewrite collected_table. unfold insert_not_exists.
      cbn [rows_to_insert List.filter]. rewrite app_nil_r. by destruct (no_faults_dec f).
    + by rewrite increment_table_table_eq, collected_table.
Qed.

(** X17. The order in which the futures complete changes the order of the
    rows added and nothing else: for two completion orders of the same
    repositories the script leaves tables with the same rows, each as many
    times. *)
Theorem main_completion_order (task : Task) (c1 c2 : list Repo) (f : Faults)
    (w : World) :
  c1 ≡ₚ c2 →
  table (main task c1 f w).2 ≡ₚ table (main task c2 f w).2.
Proof.
  intros Hp. rewrite !main_table.
  assert (Hl : omap (task_data task) c1 ≡ₚ omap (task_data task) c2)
    by (by rewrite Hp).
  destruct (omap (task_data task) c1) as [|d1 l1] eqn:E1.
  - apply Permutation_nil_l in Hl. by rewrite <- Hl.
  - destruct (omap (task_data task) c2) as [|d2 l2] eqn:E2.
    + by apply Permutation_nil_r in Hl.
    + destruct (no_faults_dec f); [|done].
      unfold insert_not_exists.
      by rewrite (rows_to_insert_Permutation _ _ _ (concat_Permutation _ _ Hl)).
Qed.

Lemma main_completion_order_witness :
  [repo_bad; repo_ok] ≡ₚ [repo_ok; repo_bad]
  ∧ table (main sample_task [repo_bad; repo_ok] healthy (world_with [row_b])).2
    ≡ₚ table (main sample_task [repo_ok; repo_bad] healthy (world_with [row_b])).2.
Proof.
  assert (H : [repo_bad; repo_ok] ≡ₚ [repo_ok; repo_bad]) by apply perm_swap.
  split; [exact H|].
  exact (main_completion_order sample_task _ _ healthy (world_with [row_b]) H).
Defined.

(** X18. Running the script again on the same fetch results, in whatever
    order they complete this time, leaves the table the first run left,
    whether the second run gets through or not. *)
Theorem main_again (task : Task) (c1 c2 : list Repo) (f1 f2 : Faults)
    (w w1 : World) :
  main task c1 f1 w = (inr tt, w1) → c2 ≡ₚ c1 →
  table (main task c2 f2 w1).2 = table w1.
Proof.
  intros H Hp.
  assert (Ht : table w1 = table (main task c1 f1 w).2) by (by rewrite H).
  rewrite main_table in Ht. rewrite main_table.
  assert (Hl : omap (task_data task) c2 ≡ₚ omap (task_data task) c1)
    by (by rewrite Hp).
  destruct (omap (task_data task) c2) as [|d2 l2] eqn:E2; [done|].
  destruct (no_faults_dec f2); [|done].
  destruct (omap (task_data task) c1) as [|d1 l1] eqn:E1.
  { by apply Permutation_nil_r in Hl. }
  destruct (no_faults_dec f1) as [Hf1|Hf1].
  - unfold insert_not_exists at 1.
    rewrite rows_to_insert_present; [by rewrite app_nil_r|].
    intros s Hs. rewrite Ht. apply insert_not_exists_elem. right.
    by rewrite <- (concat_Permutation _ _ Hl).
  - rewrite main_run, collected_fresh, E1 in H. unfold pd_concat in H.
    destruct (concat (d1 :: l1)) as [|r df]; [discriminate|].
    destruct (increment_table_raises f1 (r :: df)
                (fetch_all_commit_histories task c1 (set_dfs [] w)) Hf1)
      as (e & w' & E & _).
    rewrite E in H. discriminate.
Qed.

Lemma main_again_witness :
  main sample_task [repo_bad; repo_ok] healthy (world_with [row_b])
  = (inr tt, (main sample_task [repo_bad; repo_ok] healthy (world_with [row_b])).2)
  ∧ [repo_ok; repo_bad] ≡ₚ [repo_bad; repo_ok]
  ∧ table (main sample_task [repo_ok; repo_bad] healthy
             (main sample_task [repo_bad; repo_ok] healthy (world_with [row_b])).2).2
    = table (main sample_task [repo_bad; repo_ok] healthy (world_with [row_b])).2.
Proof.
  assert (H1 : main sample_task [repo_bad; repo_ok] healthy (world_with [row_b])
    = (inr tt, (main sample_task [repo_bad; repo_ok] healthy (world_with [row_b])).2)).
  { vm_compute. reflexivity. }
  assert (H2 : [repo_ok; repo_bad] ≡ₚ [repo_bad; repo_ok]) by apply perm_swap.
  split; [exact H1|]. split; [exact H2|].
  exact (main_again sample_task _ _ healthy healthy (world_with [row_b]) _ H1 H2).
Defined.

Lemma omap_length_le {A B} (f : A → option B) (l : list A) :
  (length (omap f l) ≤ length l)%nat.
Proof.
  induction l as [|x l IH]; [done|].
  change (omap f (x :: l)) with
    (match f x with Some y => y :: omap f l | None => omap f l end).
  destruct (f x); simpl; lia.
Qed.

(** X19. The collector adds to [dfs] and never takes from it: what the list
    held before stays in front, one data frame follows for each repository
    whose task returned, in the order of completion, and exactly one line is
    printed per repository; the permanent table is not touched. *)
Theorem fetch_all_commit_histories_appends (task : Task) (completed : list Repo)
    (w : World) :
  dfs (fetch_all_commit_histories task completed w)
  = dfs w ++ omap (task_data task) completed
  ∧ length (stdout (fetch_all_commit_histories task completed w))
    = length (stdout w) + length completed
  ∧ (length (dfs (fetch_all_commit_histories task completed w))
     ≤ length (dfs w) + length completed)%nat
  ∧ table (fetch_all_commit_histories task completed w) = table w
  ∧ storage_log (fetch_all_commit_histories task completed w) = storage_log w.
Proof.
  destruct (collected_storage task completed w) as (Ht & Hl & _).
  rewrite collected_dfs, collected_stdout, !length_app, length_map.
  repeat split; [|done|done].
  pose proof (omap_length_le (task_data task) completed). lia.
Qed.

(** ** Loading the module *)

(** X20. The module loads exactly when the five variables it reads are all
    set; the [Authorization] header then is [Bearer] followed by the token. *)
Theorem load_module_needs_all (environ : gmap string string) :
  (∃ cfg, load_module environ = inr cfg
          ∧ (∀ token, environ !! "BEARER_TOKEN" = Some token →
               HEADERS cfg !! "Authorization" = Some (String.append "Bearer " token)))
  ↔ ∀ k, k ∈ environ_names → is_Some (environ !! k).
Proof.
  unfold load_module, environ_get, environ_names. split.
  - intros (cfg & H & _) k Hk.
    destruct (environ !! "BEARER_TOKEN") eqn:E1; [|discriminate].
    destruct (environ !! "SNOWFLAKE_USER") eqn:E2; [|discriminate].
    destruct (environ !! "SNOWFLAKE_PASS") eqn:E3; [|discriminate].
    destruct (environ !! "SNOWFLAKE_ACCOUNT") eqn:E4; [|discriminate].
    destruct (environ !! "SNOWFLAKE_WAREHOUSE") eqn:E5; [|discriminate].
    repeat (apply elem_of_cons in Hk as [->|Hk]; [by eexists|]).
    by apply elem_of_nil in Hk.
  - intros H.
    destruct (H "BEARER_TOKEN") as [v1 ->]; [set_solver|].
    destruct (H "SNOWFLAKE_USER") as [v2 ->]; [set_solver|].
    destruct (H "SNOWFLAKE_PASS") as [v3 ->]; [set_solver|].
    destruct (H "SNOWFLAKE_ACCOUNT") as [v4 ->]; [set_solver|].
    destruct (H "SNOWFLAKE_WAREHOUSE") as [v5 ->]; [set_solver|].
    eexists. split; [reflexivity|]. intros token [= <-]. cbn [HEADERS].
    rewrite lookup_insert_ne by done. apply lookup_singleton_eq.
Qed.

(** X21. When the module fails to load it is with a [KeyError] for one of
    the five names, that name is not set, and every name read before it (in
    the order of the source) is set: the error names the first missing
    variable. *)
Theorem load_module_key_error (environ : gmap string string) (k : string) :
  load_module environ = inl k →
  ∃ before after, environ_names = before ++ k :: after
                  ∧ environ !! k = None
                  ∧ ∀ k', k' ∈ before → is_Some (environ !! k').
Proof.
  unfold load_module, environ_get, environ_names.
  destruct (environ !! "BEARER_TOKEN") eqn:E1.
  2:{ intros [= <-]. exists [], ["SNOWFLAKE_USER"; "SNOWFLAKE_PASS";
        "SNOWFLAKE_ACCOUNT"; "SNOWFLAKE_WAREHOUSE"].
      split; [done|]. split; [done|]. intros k' Hk. by apply elem_of_nil in Hk. }
  destruct (environ !! "SNOWFLAKE_USER") eqn:E2.
  2:{ intros [= <-]. exists ["BEARER_TOKEN"], ["SNOWFLAKE_PASS";
        "SNOWFLAKE_ACCOUNT"; "SNOWFLAKE_WAREHOUSE"].
      split; [done|]. split; [done|]. intros k' Hk.
      repeat (apply elem_of_cons in Hk as [->|Hk]; [by eexists|]).
      by apply elem_of_nil in Hk. }
  destruct (environ !! "SNOWFLAKE_PASS") eqn:E3.
  2:{ intros [= <-]. exists ["BEARER_TOKEN"; "SNOWFLAKE_USER"],
        ["SNOWFLAKE_ACCOUNT"; "SNOWFLAKE_WAREHOUSE"].
      split; [done|]. split; [done|]. intros k' Hk.
      repeat (apply elem_of_cons in Hk as [->|Hk]; [by eexists|]).
      by apply elem_of_nil in Hk. }
  destruct (environ !! "SNOWFLAKE_ACCOUNT") eqn:E4.
  2:{ intros [= <-]. exists ["BEARER_TOKEN"; "SNOWFLAKE_USER"; "SNOWFLAKE_PASS"],
        ["SNOWFLAKE_WAREHOUSE"].
      split; [done|]. split; [done|]. intros k' Hk.
      repeat (apply elem_of_cons in Hk as [->|Hk]; [by eexists|]).
      by apply elem_of_nil in Hk. }
  destruct (environ !! "SNOWFLAKE_WAREHOUSE") eqn:E5; [discriminate|].
  intros [= <-]. exists ["BEARER_TOKEN"; "SNOWFLAKE_USER"; "SNOWFLAKE_PASS";
    "SNOWFLAKE_ACCOUNT"], [].
  split; [done|]. split; [done|]. intros k' Hk.
  repeat (apply elem_of_cons in Hk as [->|Hk]; [by eexists|]).
  by apply elem_of_nil in Hk.
Qed.

Lemma load_module_key_error_witness :
  load_module (delete "SNOWFLAKE_PASS" sample_environ) = inl "SNOWFLAKE_PASS"
  ∧ ∃ before after, environ_names = before ++ "SNOWFLAKE_PASS" :: after
      ∧ delete "SNOWFLAKE_PASS" sample_environ !! "SNOWFLAKE_PASS" = None
      ∧ ∀ k', k' ∈ before → is_Some (delete "SNOWFLAKE_PASS" sample_environ !! k').
Proof.
  assert (H : load_module (delete "SNOWFLAKE_PASS" sample_environ)
              = inl "SNOWFLAKE_PASS") by (vm_compute; reflexivity).
  split; [exact H|].
  exact (load_module_key_error _ _ H).
Defined.

(** ** More sample evaluations *)

Example int_error_samples :
  int_of_str (String (ascii_of_nat 31) ("42" ++ chr (ascii_of_nat 28)))
  = inl (ValueError "invalid literal for int() with base 10: '\x1f42\x1c'")
  ∧ int_of_str (string_of_list_ascii (repeat "1"%char 5000))
    = inl (ValueError "Exceeds the limit (4300 digits) for integer string conversion: value has 5000 digits; use sys.set_int_max_str_digits() to increase the limit")
  ∧ int_of_str (String (ascii_of_nat 133) ("+1_000" ++ chr (ascii_of_nat 160)))
    = inr 1000%Z.
Proof. repeat split; vm_compute; reflexivity. Qed.

(** When the only repositories that came back have no commit in the window,
    the frame has no column and the script ends at line 108, before the
    connection is opened. *)
Example main_quiet_sample :
  (main (λ _ _, inr []) [repo_ok] healthy (world_with [row_b])).1
  = inl (AttributeError "Can only use .str accessor with string values!")
  ∧ storage_log (main (λ _ _, inr []) [repo_ok] healthy (world_with [row_b])).2 = []
  ∧ table (main (λ _ _, inr []) [repo_ok] healthy (world_with [row_b])).2 = [row_b].
Proof. repeat split; vm_compute; reflexivity. Qed.
